(** * Verification of the chutor analysis core

    A shallow embedding of the server-side analysis code: the move
    classifier and bootstrap engine [analyzeGames] (server analysis.js),
    the worker/orchestrator pair (worker-thread.js, index.ts), and the
    [SummaryCache] of analysis.ts.  JS numbers that hold centipawns and
    plies are modelled as [Z]; JS objects used as dictionaries whose key
    order is never observed are [gmap]s; Maps whose iteration order is
    observed are association lists in insertion order. *)

From Stdlib Require Import ZArith List String Ascii Bool Lia Sorting.Sorted.
From Stdlib Require Structures.OrderedTypeEx.
From stdpp Require Import base gmap strings list.

Local Open Scope string_scope.
Local Open Scope Z_scope.

(* ------------------------------------------------------------------ *)
(** ** JS string helpers (ASCII) *)

Module Js.

(** [String.prototype.trim], exact on ASCII strings only: drops space,
    tab, LF, VT, FF and CR.  JS also drops the Unicode white space
    (U+00A0, U+FEFF, the U+2000 block, ...), which this model keeps. *)
Definition is_ws (c : ascii) : bool :=
  let n := nat_of_ascii c in (n =? 32)%nat || ((9 <=? n)%nat && (n <=? 13)%nat).

Fixpoint ltrim (s : string) : string :=
  match s with
  | EmptyString => EmptyString
  | String c r => if is_ws c then ltrim r else s
  end.

Definition rev_string (s : string) : string :=
  string_of_list_ascii (List.rev (list_ascii_of_string s)).

Definition trim (s : string) : string := rev_string (ltrim (rev_string (ltrim s))).

(** [String.prototype.toLowerCase], exact on ASCII strings only: maps
    A-Z to a-z.  JS also lower-cases non-ASCII letters, which this model
    leaves as they are. *)
Definition lower_char (c : ascii) : ascii :=
  let n := nat_of_ascii c in
  if ((65 <=? n)%nat && (n <=? 90)%nat) then ascii_of_nat (n + 32) else c.

Fixpoint toLowerCase (s : string) : string :=
  match s with
  | EmptyString => EmptyString
  | String c r => String (lower_char c) (toLowerCase r)
  end.

(** A string is truthy when it is not empty. *)
Definition truthy (s : string) : bool := negb (String.eqb s "").

(** [n % 2 === 1] with JS's truncated remainder. *)
Definition odd_ply (p : Z) : bool := Z.eqb (Z.rem p 2) 1.

(** [Math.ceil(p / 2)] for an integer [p]. *)
Definition ceil_half (p : Z) : Z := (p + 1) / 2.

End Js.

(* ------------------------------------------------------------------ *)
(** ** Data model (types.ts, normalised game records) *)

Record Eval := mkEval { ev_cp : option Z; ev_mate : option Z }.
Record Judgment := mkJudgment { j_name : option string; j_cp : option Z }.
Record AnalyzedMove := mkMove {
  mv_ply : option Z;
  mv_eval : option Eval;
  mv_judgment : option Judgment
}.

(** A board state as chess.js's [fen()] prints it: the six FEN fields. *)
Record Fen := mkFen {
  fen_placement : string;
  fen_active : string;
  fen_castling : string;
  fen_ep : string;
  fen_half : string;
  fen_full : string
}.

(** [engine.fen()]: the six fields joined by single spaces. *)
Definition fen (f : Fen) : string :=
  fen_placement f ++ " " ++ fen_active f ++ " " ++ fen_castling f ++ " " ++
  fen_ep f ++ " " ++ fen_half f ++ " " ++ fen_full f.

(** A game record after name resolution.  [g_white]/[g_black] is the first
    truthy name of the lookup chain of [analyzeGames], whose last fallback
    is the [White]/[Black] tag of [game.pgn.raw] only;
    [g_names_white]/[g_names_black] is the first truthy name of the chain
    of [extractGameNames], whose last fallback is the tag of [pgnRaw]
    ([game.pgn.raw], or [game.pgn] when it is a string).  The two differ
    for a game whose only names are the tags of a string [pgn];
    [g_analysis] is [game.analysis] when it is an array (else [[]]), and
    [g_positions] is what [computePositions(game)] returns, the Map
    ply -> board state produced by chess.js's replay of the PGN (entries
    [0, 1, ..., n] in insertion order; empty when there is no PGN or it
    does not parse). *)
Record Game := mkGame {
  g_id : option string;
  g_opening : option string;
  g_white : option string;
  g_black : option string;
  g_names_white : option string;
  g_names_black : option string;
  g_analysis : list AnalyzedMove;
  g_positions : list (Z * Fen)
}.

Record Options := mkOptions {
  onlyForUsername : option string;
  bootstrapOpening : option string
}.

Inductive Kind := Inaccuracy | Mistake | Blunder.
Inductive Side := White | Black.

(** Entries of [topBlunders] / [topMistakes]; [e_kind] is absent on
    [topBlunders] entries, [e_boot] marks bootstrapped entries. *)
Record Event := mkEvent {
  e_gameId : string;
  e_moveNumber : Z;
  e_ply : Z;
  e_side : Side;
  e_cp : option Z;
  e_kind : option Kind;
  e_boot : bool
}.

Record RawLabel := mkLabel {
  l_gameId : string;
  l_moveNumber : Z;
  l_ply : Z;
  l_side : Side;
  l_kind : Kind;
  l_cp : option Z;
  l_opening : string
}.

Record Summary := mkSummary {
  inaccuracies : nat;
  mistakes : nat;
  blunders : nat;
  mistakesByOpening : gmap string nat;
  blundersByOpening : gmap string nat;
  topBlunders : list Event;
  topMistakes : list Event
}.

Definition empty_summary : Summary := mkSummary 0 0 0 ∅ ∅ [] [].

(* ------------------------------------------------------------------ *)
(** ** Summary updates (the statements of the classification loop) *)

(** [obj[k] = (obj[k] ?? 0) + 1] *)
Definition incr (k : string) (m : gmap string nat) : gmap string nat :=
  <[k := (default 0 (m !! k) + 1)%nat]> m.

Definition bump_inacc (s : Summary) : Summary :=
  mkSummary (S (inaccuracies s)) (mistakes s) (blunders s)
    (mistakesByOpening s) (blundersByOpening s) (topBlunders s) (topMistakes s).
Definition bump_mist (s : Summary) : Summary :=
  mkSummary (inaccuracies s) (S (mistakes s)) (blunders s)
    (mistakesByOpening s) (blundersByOpening s) (topBlunders s) (topMistakes s).
Definition bump_blun (s : Summary) : Summary :=
  mkSummary (inaccuracies s) (mistakes s) (S (blunders s))
    (mistakesByOpening s) (blundersByOpening s) (topBlunders s) (topMistakes s).
Definition bump_mbo (k : string) (s : Summary) : Summary :=
  mkSummary (inaccuracies s) (mistakes s) (blunders s)
    (incr k (mistakesByOpening s)) (blundersByOpening s) (topBlunders s) (topMistakes s).
Definition bump_bbo (k : string) (s : Summary) : Summary :=
  mkSummary (inaccuracies s) (mistakes s) (blunders s)
    (mistakesByOpening s) (incr k (blundersByOpening s)) (topBlunders s) (topMistakes s).
Definition push_blunder (e : Event) (s : Summary) : Summary :=
  mkSummary (inaccuracies s) (mistakes s) (blunders s)
    (mistakesByOpening s) (blundersByOpening s) (app (topBlunders s) [e]) (topMistakes s).
Definition push_mistake (e : Event) (s : Summary) : Summary :=
  mkSummary (inaccuracies s) (mistakes s) (blunders s)
    (mistakesByOpening s) (blundersByOpening s) (topBlunders s) (app (topMistakes s) [e]).

(** The loop state: the summary being built and [rawLabels]. *)
Definition St : Type := (Summary * list RawLabel)%type.

(* ------------------------------------------------------------------ *)
(** ** The move classifier: first loop of [analyzeGames] *)

Module Classifier.
Import Js.

(** [String(game?.opening?.name ?? 'Unknown')] *)
Definition openingName (g : Game) : string := default "Unknown" (g_opening g).
(** [String(game?.id ?? '')] *)
Definition gameId (g : Game) : string := default "" (g_id g).

(** [mv?.judgment?.name] when truthy. *)
Definition judgmentName (mv : AnalyzedMove) : option string :=
  match mv_judgment mv with
  | Some j => match j_name j with
              | Some n => if truthy n then Some n else None
              | None => None
              end
  | None => None
  end.

Definition judgmentCp (mv : AnalyzedMove) : option Z :=
  match mv_judgment mv with Some j => j_cp j | None => None end.

(** [analyzedMoves.some((mv) => mv?.judgment?.name)] *)
Definition hasJudgments (moves : list AnalyzedMove) : bool :=
  existsb (fun mv => match judgmentName mv with Some _ => true | None => false end) moves.

(** [options.onlyForUsername?.trim().toLowerCase() || ''] *)
Definition normalizedTarget (o : option string) : string :=
  match o with Some u => toLowerCase (trim u) | None => "" end.

Definition matchesTarget (target : string) (name : option string) : bool :=
  match name with Some n => String.eqb (toLowerCase (trim n)) target | None => false end.

(** The side the target user plays in [g] (null when no target), from the
    names of the lookup chain of [analyzeGames] ([g_white], [g_black]). *)
Definition targetSide (target : string) (g : Game) : option Side :=
  if truthy target then
    if matchesTarget target (g_white g) then Some White
    else if matchesTarget target (g_black g) then Some Black
    else None
  else None.

(** [typeof mv?.ply === 'number' ? mv.ply : idx + 1] *)
Definition plyValue (mv : AnalyzedMove) (idx : nat) : Z :=
  match mv_ply mv with Some p => p | None => Z.of_nat idx + 1 end.

Definition sideOf (p : Z) : Side := if odd_ply p then White else Black.

(** The username filter: [true] when the move is skipped. *)
Definition skipForTarget (ts : option Side) (p : Z) : bool :=
  match ts with
  | Some White => negb (odd_ply p)
  | Some Black => odd_ply p
  | None => false
  end.

(** Body of [analyzedMoves.forEach] (the label-trusting branch). *)
Definition label_step (ts : option Side) (gid key : string) (st : St)
    (idx : nat) (mv : AnalyzedMove) : St :=
  let '(s, labels) := st in
  match judgmentName mv with
  | None => st
  | Some judgment =>
    let p := plyValue mv idx in
    let moveNumber := ceil_half p in
    let centipawnLoss := judgmentCp mv in
    if skipForTarget ts p then st else
    let name := toLowerCase judgment in
    let lbl k := mkLabel gid moveNumber p (sideOf p) k centipawnLoss key in
    if String.eqb name "inaccuracy" then
      (bump_mbo key (bump_inacc s), app labels [lbl Inaccuracy])
    else if String.eqb name "mistake" then
      (bump_mbo key (bump_mist s), app labels [lbl Mistake])
    else if String.eqb name "blunder" then
      (push_blunder (mkEvent gid moveNumber p (sideOf p) centipawnLoss None false)
         (bump_bbo key (bump_mbo key (bump_blun s))),
       app labels [lbl Blunder])
    else st
  end.

Fixpoint label_pass_from (ts : option Side) (gid key : string) (idx : nat)
    (moves : list AnalyzedMove) (st : St) : St :=
  match moves with
  | [] => st
  | mv :: rest => label_pass_from ts gid key (S idx) rest (label_step ts gid key st idx mv)
  end.

(** [m?.eval?.cp ?? m?.judgment?.cp] *)
Definition evalCp (mv : AnalyzedMove) : option Z :=
  match mv_eval mv with
  | Some e => match ev_cp e with Some c => Some c | None => judgmentCp mv end
  | None => judgmentCp mv
  end.

(** [m?.eval?.mate] *)
Definition evalMate (mv : AnalyzedMove) : option Z :=
  match mv_eval mv with Some e => ev_mate e | None => None end.

(** [typeof prev.cp === 'number' && typeof curr.cp === 'number'
       ? Math.abs(curr.cp - prev.cp) : 0] *)
Definition delta (prev curr : AnalyzedMove) : Z :=
  match evalCp prev, evalCp curr with
  | Some a, Some b => Z.abs (b - a)
  | _, _ => 0
  end.

(** Body of [for (let i = 1; i < evals.length; i++)]: [prev] is entry
    [i - 1], [curr] is entry [i]. *)
Definition eval_step (ts : option Side) (gid key : string) (st : St)
    (i : nat) (prev curr : AnalyzedMove) : St :=
  let '(s, labels) := st in
  let d := delta prev curr in
  let p := plyValue curr i in
  let moveNumber := ceil_half p in
  if skipForTarget ts p then st else
  let cp := if 0 <? d then Some d else None in
  let lbl k := mkLabel gid moveNumber p (sideOf p) k cp key in
  if 250 <=? d then
    (push_blunder (mkEvent gid moveNumber p (sideOf p) cp None false)
       (bump_bbo key (bump_mbo key (bump_blun s))),
     app labels [lbl Blunder])
  else if 150 <=? d then
    (bump_mbo key (bump_mist s), app labels [lbl Mistake])
  else if 60 <=? d then
    (bump_mbo key (bump_inacc s), app labels [lbl Inaccuracy])
  else st.

Fixpoint eval_pass_from (ts : option Side) (gid key : string) (i : nat)
    (prev : AnalyzedMove) (rest : list AnalyzedMove) (st : St) : St :=
  match rest with
  | [] => st
  | curr :: rest' =>
    eval_pass_from ts gid key (S i) curr rest' (eval_step ts gid key st i prev curr)
  end.

Definition eval_pass (ts : option Side) (gid key : string) (moves : list AnalyzedMove)
    (st : St) : St :=
  match moves with
  | [] => st
  | m0 :: rest => eval_pass_from ts gid key 1 m0 rest st
  end.

(** One iteration of [for (const game of games)]. *)
Definition game_step (target : string) (st : St) (g : Game) : St :=
  let key := openingName g in
  let gid := gameId g in
  let moves := g_analysis g in
  let ts := targetSide target g in
  let st1 := label_pass_from ts gid key 0 moves st in
  if negb (hasJudgments moves) && negb (Nat.eqb (length moves) 0) then
    eval_pass ts gid key moves st1
  else st1.

Definition classify (target : string) (games : list Game) (st : St) : St :=
  fold_left (game_step target) games st.

End Classifier.

(* ------------------------------------------------------------------ *)
(** ** The bootstrap engine: the [if (restrictOpening)] block *)

Module Bootstrap.
Import Js Classifier.

(** [type Aggregated] of the position index. *)
Record Aggregated := mkAgg {
  a_kind : Kind;
  a_moveNumber : Z;
  a_ply : Z;
  a_opening : string;
  a_cp : option Z;
  a_frequency : nat
}.

Definition severityRank (k : Kind) : Z :=
  match k with Blunder => 3 | Mistake => 2 | Inaccuracy => 1 end.

(** [Map.prototype.get] on a Map built by [computePositions]: keys are
    compared with [===]. *)
Fixpoint pos_get (ply : Z) (pos : list (Z * Fen)) : option Fen :=
  match pos with
  | [] => None
  | (k, f) :: r => if Z.eqb k ply then Some f else pos_get ply r
  end.

(** [openingByGame]: [if (gid) openingByGame.set(gid, openingName)]. *)
Definition openingByGame (games : list Game) : gmap string string :=
  fold_left (fun m g => if truthy (gameId g) then <[gameId g := openingName g]> m else m)
    games ∅.

(** [gameById] *)
Definition gameById (games : list Game) : gmap string Game :=
  fold_left (fun m g => if truthy (gameId g) then <[gameId g := g]> m else m) games ∅.

(** [openingByGame.get(gid) || 'Unknown'] *)
Definition openingOf (obg : gmap string string) (gid : string) : string :=
  match obg !! gid with Some o => if truthy o then o else "Unknown" | None => "Unknown" end.

(** [analyzedMoves.some((mv) => typeof mv?.eval?.cp === 'number')] *)
Definition hasCp (moves : list AnalyzedMove) : bool :=
  existsb (fun mv => match mv_eval mv with
                     | Some e => match ev_cp e with Some _ => true | None => false end
                     | None => false end) moves.

(** [gameIsEvaluated] *)
Definition gameIsEvaluated (g : Game) : bool :=
  hasJudgments (g_analysis g) || hasCp (g_analysis g).

(** [positionsByGame]: positions of the evaluated games (those with a raw
    label), then of the unevaluated games of the selected opening. *)
Definition positionsByGame (games : list Game) (restrict : string)
    (rawLabels : list RawLabel) : gmap string (list (Z * Fen)) :=
  let gbi := gameById games in
  let obg := openingByGame games in
  let m1 := fold_left (fun m lbl =>
              match gbi !! l_gameId lbl with
              | Some g => <[l_gameId lbl := g_positions g]> m
              | None => m
              end) rawLabels ∅ in
  fold_left (fun m g =>
    let gid2 := gameId g in
    if negb (truthy gid2) then m
    else if negb (String.eqb (openingOf obg gid2) restrict) then m
    else if hasJudgments (g_analysis g) || hasCp (g_analysis g) then m
    else <[gid2 := g_positions g]> m) games m1.

(** One iteration of the loop that builds [fenIndex]. *)
Definition index_step (pbg : gmap string (list (Z * Fen)))
    (idx : gmap string Aggregated) (lbl : RawLabel) : gmap string Aggregated :=
  match pbg !! l_gameId lbl with
  | None => idx
  | Some pos =>
    match pos_get (l_ply lbl) pos with
    | None => idx
    | Some f =>
      let k := fen f in
      match idx !! k with
      | None => <[k := mkAgg (l_kind lbl) (l_moveNumber lbl) (l_ply lbl)
                             (l_opening lbl) (l_cp lbl) 1]> idx
      | Some ex =>
        let freq := S (a_frequency ex) in
        let ex1 := if severityRank (l_kind lbl) >? severityRank (a_kind ex)
                   then mkAgg (l_kind lbl) (l_moveNumber lbl) (l_ply lbl) (l_opening lbl)
                              (a_cp ex) freq
                   else mkAgg (a_kind ex) (a_moveNumber ex) (a_ply ex) (a_opening ex)
                              (a_cp ex) freq in
        let cp := match l_cp lbl, a_cp ex with
                  | Some c, Some c0 => if c0 <? c then Some c else Some c0
                  | Some c, None => Some c
                  | None, c0 => c0
                  end in
        <[k := mkAgg (a_kind ex1) (a_moveNumber ex1) (a_ply ex1) (a_opening ex1)
                     cp (a_frequency ex1)]> idx
      end
    end
  end.

Definition fenIndex (pbg : gmap string (list (Z * Fen))) (rawLabels : list RawLabel)
    : gmap string Aggregated :=
  fold_left (index_step pbg) rawLabels ∅.

(** Body of [for (const [ply, fen] of pos.entries())]. *)
Definition apply_ply (idx : gmap string Aggregated) (gid3 opening : string)
    (s : Summary) (entry : Z * Fen) : Summary :=
  let '(ply, f) := entry in
  if Z.eqb ply 0 then s else
  match idx !! fen f with
  | None => s
  | Some agg =>
    let side := sideOf ply in
    if negb (match side, sideOf (a_ply agg) with
             | White, White | Black, Black => true | _, _ => false end) then s else
    let moveNumber := ceil_half ply in
    let s1 := match a_kind agg with
              | Blunder => bump_bbo opening (bump_mbo opening (bump_blun s))
              | Mistake => bump_mbo opening (bump_mist s)
              | Inaccuracy => bump_mbo opening (bump_inacc s)
              end in
    push_mistake (mkEvent gid3 moveNumber ply side (a_cp agg) (Some (a_kind agg)) true) s1
  end.

(** One iteration of the apply loop over [games]. *)
Definition apply_game (idx : gmap string Aggregated) (pbg : gmap string (list (Z * Fen)))
    (obg : gmap string string) (restrict : string) (s : Summary) (g : Game) : Summary :=
  if gameIsEvaluated g then s else
  let gid3 := gameId g in
  if negb (truthy gid3) then s else
  let opening := openingOf obg gid3 in
  if negb (String.eqb opening restrict) then s else
  match pbg !! gid3 with
  | None => s
  | Some pos => fold_left (apply_ply idx gid3 opening) pos s
  end.

Definition bootstrap (games : list Game) (restrict : string) (rawLabels : list RawLabel)
    (s : Summary) : Summary :=
  let pbg := positionsByGame games restrict rawLabels in
  let idx := fenIndex pbg rawLabels in
  fold_left (apply_game idx pbg (openingByGame games) restrict) games s.

End Bootstrap.

(* ------------------------------------------------------------------ *)
(** ** Stable sort by centipawn loss, descending *)

Section StableSort.
Context {A : Type} (key : A -> Z).

(** Insertion keeps ties in input order: [x] precedes every element of
    the sorted tail whose key is not greater than its own. *)
Fixpoint insert_desc (x : A) (l : list A) : list A :=
  match l with
  | [] => [x]
  | y :: l' => if key y <=? key x then x :: l else y :: insert_desc x l'
  end.

(** [Array.prototype.sort] with comparator [(a, b) => key b - key a]:
    a stable sort (ES2019), descending on [key]. *)
Fixpoint sort_desc (l : list A) : list A :=
  match l with
  | [] => []
  | x :: l' => insert_desc x (sort_desc l')
  end.


(** Sorted in descending order of [key]. *)
Definition sorted_desc : list A -> Prop := Sorted (fun a b => key b <= key a).

End StableSort.

(** [(e.centipawnLoss ?? 0)] *)
Definition cpKey (e : Event) : Z := default 0 (e_cp e).

Definition finalize (s : Summary) : Summary :=
  mkSummary (inaccuracies s) (mistakes s) (blunders s) (mistakesByOpening s)
    (blundersByOpening s) (sort_desc cpKey (topBlunders s)) (sort_desc cpKey (topMistakes s)).

(** [analyzeGames(games, options)] of the server's analysis.js. *)
Definition analyzeGames (games : list Game) (o : Options) : Summary :=
  let target := Classifier.normalizedTarget (onlyForUsername o) in
  let '(s, rawLabels) := Classifier.classify target games (empty_summary, []) in
  let s' := match bootstrapOpening o with
            | Some r => if Js.truthy r then Bootstrap.bootstrap games r rawLabels s else s
            | None => s
            end in
  finalize s'.

(** [lossForMover] of [analyzeGamesWithPrecomputedData], the sibling
    classifier of the same file: the mover-centric loss, [0] when a cp is
    missing or a mate score is present. *)
Definition lossForMover (prev curr : AnalyzedMove) (plyIndex : Z) : Z :=
  match Classifier.evalCp prev, Classifier.evalCp curr with
  | Some pw, Some cw =>
    match Classifier.evalMate prev, Classifier.evalMate curr with
    | None, None =>
      let deltaWhite := cw - pw in
      if Js.odd_ply plyIndex then Z.max 0 (- deltaWhite) else Z.max 0 deltaWhite
    | _, _ => 0
    end
  | _, _ => 0
  end.

(* ------------------------------------------------------------------ *)
(** ** Workers and the merge of [analyzeWithParallelWorkers] *)

Module Orchestrator.
Import Js Classifier.

(** The lower-cased trimmed names of [extractGameNames(g)], as the [Set]
    built in [deriveUsernameFromGames] (insertion order). *)
Definition gameNameSet (g : Game) : list string :=
  let add acc n :=
    match n with
    | Some s => let t := trim s in
                if truthy t then
                  let l := toLowerCase t in
                  if existsb (String.eqb l) acc then acc else app acc [l]
                else acc
    | None => acc
    end in
  add (add [] (g_names_white g)) (g_names_black g).

(** [counts.set(n, (counts.get(n) ?? 0) + 1)] on a Map in insertion order. *)
Fixpoint count_bump (n : string) (m : list (string * nat)) : list (string * nat) :=
  match m with
  | [] => [(n, 1%nat)]
  | (k, c) :: r => if String.eqb k n then (k, S c) :: r else (k, c) :: count_bump n r
  end.

Definition usernameCounts (all : list Game) : list (string * nat) :=
  fold_left (fun m g => fold_left (fun m n => count_bump n m) (gameNameSet g) m) all [].

(** The first name with the strictly largest count. *)
Definition deriveUsernameFromGames (all : list Game) : option string :=
  fst (fold_left (fun '(best, bc) '(n, c) => if (bc <? c)%nat then (Some n, c) else (best, bc))
         (usernameCounts all) (None, 0%nat)).

(** The worker's [message] handler (worker-thread.js): the target user is
    [options.onlyForUsername || deriveUsernameFromGames(games)], and only
    [onlyForUsername] is passed on to [analyzeGames]. *)
Definition workerTarget (o : Options) (chunk : list Game) : option string :=
  match onlyForUsername o with
  | Some u => if truthy u then Some u else deriveUsernameFromGames chunk
  | None => deriveUsernameFromGames chunk
  end.

Definition worker (o : Options) (chunk : list Game) : Summary :=
  let analysisOptions :=
    match workerTarget o chunk with
    | Some t => if truthy t then mkOptions (Some t) None else mkOptions None None
    | None => mkOptions None None
    end in
  analyzeGames chunk analysisOptions.

(** Counts of two partitions added key by key ([(m[k] || 0) + count]). *)
Definition merge_counts (m r : gmap string nat) : gmap string nat :=
  union_with (fun x y => Some (x + y)%nat) m r.

(** One iteration of [for (const result of workerResults)]. *)
Definition merge_step (m r : Summary) : Summary :=
  mkSummary (inaccuracies m + inaccuracies r) (mistakes m + mistakes r)
    (blunders m + blunders r)
    (merge_counts (mistakesByOpening m) (mistakesByOpening r))
    (merge_counts (blundersByOpening m) (blundersByOpening r))
    (app (topBlunders m) (topBlunders r)) (app (topMistakes m) (topMistakes r)).

(** The merge loop followed by the re-sort of both top lists. *)
Definition mergeResults (rs : list Summary) : Summary :=
  finalize (fold_left merge_step rs empty_summary).

End Orchestrator.

(* ------------------------------------------------------------------ *)
(** ** [SummaryCache.computeKeyFromDataset] *)

Module CacheKey.
Import Js Classifier.

Definition Tuple : Type := (string * string * nat)%type.

(** [[String(g?.id ?? ''), String(g?.opening?.name ?? 'Unknown'),
      Array.isArray(g?.analysis) ? g.analysis.length : 0]] *)
Definition datasetTuple (g : Game) : Tuple := (gameId g, openingName g, length (g_analysis g)).

(** The payload that is serialised with [JSON.stringify] and hashed:
    the sorted tuples and the options with [|| ''] applied. *)
Record Payload := mkPayload {
  p_games : list Tuple;
  p_onlyForUsername : string;
  p_bootstrapOpening : string
}.

Section Key.
(** [String.prototype.localeCompare], the comparator of the sort. *)
Variable localeCompare : string -> string -> comparison.

(** Stable insertion: [x] (earlier in the input) stays before [y] unless
    [localeCompare(x[0], y[0]) > 0]. *)
Fixpoint insert_by_id (x : Tuple) (l : list Tuple) : list Tuple :=
  match l with
  | [] => [x]
  | y :: l' =>
    match localeCompare (x.1.1) (y.1.1) with
    | Gt => y :: insert_by_id x l'
    | _ => x :: l
    end
  end.

(** [arr.sort((a, b) => a[0].localeCompare(b[0]))] (stable). *)
Fixpoint sort_by_id (l : list Tuple) : list Tuple :=
  match l with
  | [] => []
  | x :: l' => insert_by_id x (sort_by_id l')
  end.

Definition orEmpty (o : option string) : string := default "" o.

Definition payload (games : list Game) (o : Options) : Payload :=
  mkPayload (sort_by_id (map datasetTuple games))
    (orEmpty (onlyForUsername o)) (orEmpty (bootstrapOpening o)).

(** The id of a tuple and the strict order the comparator puts on ids. *)
Definition tuple_id (t : Tuple) : string := t.1.1.
Definition tuple_lt (t1 t2 : Tuple) : Prop := localeCompare (tuple_id t1) (tuple_id t2) = Lt.

(** [sha256(JSON.stringify(payload))]; [digest] is the hash of the
    serialised payload. *)
Definition computeKeyFromDataset (digest : Payload -> string) (games : list Game)
    (o : Options) : string :=
  digest (payload games o).

End Key.
End CacheKey.

(* ------------------------------------------------------------------ *)
(** ** [SummaryCache]: versioning and eviction of the disk tier *)

Module Cache.

(** [CacheEntryIndex] *)
Record Entry := mkEntry {
  en_key : string;
  en_offset : Z;
  en_length : Z;
  en_createdAt : Z;
  en_version : Z;
  en_size : Z;
  en_deleted : bool
}.

(** The state the claims read: the index object (keys in insertion
    order), [versionMap], the size of the data log file and the byte
    budget.  The memory tier and the metrics counters are not read by
    [save] or [evictIfNeeded] beyond being written, and are left out. *)
Record Cache := mkCache {
  index : list (string * Entry);
  versionMap : gmap string Z;
  dataSize : Z;
  maxDiskBytes : Z
}.

Definition empty (maxBytes : Z) : Cache := mkCache [] ∅ 0 maxBytes.

(** [obj[k] = v]: an existing key keeps its place, a new key is appended. *)
Fixpoint obj_set (k : string) (v : Entry) (m : list (string * Entry)) : list (string * Entry) :=
  match m with
  | [] => [(k, v)]
  | (k', v') :: r => if String.eqb k k' then (k, v) :: r else (k', v') :: obj_set k v r
  end.

(** [delete obj[k]] *)
Definition obj_delete (k : string) (m : list (string * Entry)) : list (string * Entry) :=
  List.filter (fun kv => negb (String.eqb kv.1 k)) m.

(** [getVersion(key)]: [this.versionMap.get(key) ?? 1] *)
Definition getVersion (c : Cache) (k : string) : Z := default 1 (versionMap c !! k).

(** The body of the eviction loop for one entry: mark it, delete it from
    the index and from [versionMap], persist the index.  The mark is put
    on an entry that the index no longer holds. *)
Definition evict_one (c : Cache) (ent : Entry) : Cache :=
  mkCache (obj_delete (en_key ent) (index c)) (delete (en_key ent) (versionMap c))
    (dataSize c) (maxDiskBytes c).

(** [for (const ent of entries) { ...; totalSize = size of data file;
       if (totalSize <= this.maxDiskBytes) break }] *)
Fixpoint evict_loop (entries : list Entry) (c : Cache) : Cache :=
  match entries with
  | [] => c
  | ent :: r =>
    let c' := evict_one c ent in
    if dataSize c' <=? maxDiskBytes c' then c' else evict_loop r c'
  end.

(** [Object.values(this.index).filter((e) => !e.deleted)
       .sort((a, b) => a.createdAt - b.createdAt)] *)
Definition liveByAge (c : Cache) : list Entry :=
  sort_desc (fun e => - en_createdAt e) (List.filter (fun e => negb (en_deleted e)) (map snd (index c))).

Definition evictIfNeeded (c : Cache) : Cache :=
  if dataSize c <=? maxDiskBytes c then c else evict_loop (liveByAge c) c.

(** [save(key, { summary, version })] at time [now], appending a
    compressed record of [gzLength] bytes. *)
Definition save (c : Cache) (k : string) (pversion : option Z) (now gzLength : Z) : Cache :=
  let version := match pversion with Some v => v | None => getVersion c k + 1 end in
  let vm := <[k := version]> (versionMap c) in
  let offset := dataSize c in
  let entry := mkEntry k offset gzLength now version gzLength false in
  evictIfNeeded (mkCache (obj_set k entry (index c)) vm (dataSize c + gzLength) (maxDiskBytes c)).

(** The version [save] records for [k]. *)
Definition savedVersion (c : Cache) (k : string) (pversion : option Z) : Z :=
  match pversion with Some v => v | None => getVersion c k + 1 end.

(** Repeated saves of one key (the route handler passes no version):
    the versions recorded, in order, and the final cache. *)
Fixpoint save_all (c : Cache) (k : string) (ops : list (Z * Z)) : list Z * Cache :=
  match ops with
  | [] => ([], c)
  | (now, len) :: r =>
    let v := savedVersion c k None in
    let '(vs, c') := save_all (save c k None now len) k r in
    (v :: vs, c')
  end.

(** Total bytes appended by a sequence of saves. *)
Definition sum_lens (ops : list (Z * Z)) : Z := fold_right (fun op acc => snd op + acc) 0 ops.

End Cache.

(* ------------------------------------------------------------------ *)
(** ** Dispatch and join of [analyzeWithParallelWorkers] *)

Module Dispatch.

(** What the orchestrator observes of worker [i]: a [message] of type
    [result], [error] or [progress], or an [error] event (a crash). *)
Inductive WorkerEvent :=
  | MsgResult (r : Summary)
  | MsgError (e : string)
  | MsgProgress
  | Crashed (e : string).

(** The caller's view of the returned promise. *)
Inductive Outcome :=
  | Done (s : Summary)
  | Failed (e : string)
  | Waiting.

(** A worker's promise: [None] while pending, [Some (inl r)] resolved,
    [Some (inr e)] rejected.  Only its first settling event counts. *)
Definition Promise : Type := option (Summary + string).

Definition settle (p : Promise) (ev : WorkerEvent) : Promise :=
  match p with
  | Some _ => p
  | None => match ev with
            | MsgResult r => Some (inl r)
            | MsgError e => Some (inr e)
            | Crashed e => Some (inr e)
            | MsgProgress => None
            end
  end.

(** [Promise.all(promises)] driven by the events of the run in the order
    they arrive ([(i, ev)]: event [ev] of worker [i]): it rejects with the
    first rejection, and resolves with the results in worker order once
    every promise has resolved. *)
Fixpoint join (ps : list Promise) (trace : list (nat * WorkerEvent))
    : (list Summary + string) + list Promise :=
  match trace with
  | [] =>
    match mapM (fun p => match p with Some (inl r) => Some r | _ => None end) ps with
    | Some rs => inl (inl rs)
    | None => inr ps
    end
  | (i, ev) :: rest =>
    match ps !! i with
    | None => join ps rest
    | Some p =>
      let p' := settle p ev in
      match p, p' with
      | None, Some (inr e) => inl (inr e)
      | _, _ => join (<[i := p']> ps) rest
      end
    end
  end.

(** The orchestrator for [n] dispatched workers: on [Promise.all]'s
    resolution it merges; a rejection reaches the [catch], which rethrows
    it to the caller. *)
Definition analyzeWithParallelWorkers (n : nat) (trace : list (nat * WorkerEvent)) : Outcome :=
  match join (replicate n None) trace with
  | inl (inl rs) => Done (Orchestrator.mergeResults rs)
  | inl (inr e) => Failed e
  | inr _ => Waiting
  end.

(** The first settling event of worker [i] in the trace. *)
Fixpoint first_settle (i : nat) (trace : list (nat * WorkerEvent)) : option WorkerEvent :=
  match trace with
  | [] => None
  | (j, ev) :: rest =>
    if Nat.eqb i j then
      match ev with MsgProgress => first_settle i rest | _ => Some ev end
    else first_settle i rest
  end.

(** Worker [i] fails when its first settling event is an error reply or a
    crash. *)
Definition worker_fails (i : nat) (trace : list (nat * WorkerEvent)) : Prop :=
  match first_settle i trace with
  | Some (MsgError _) | Some (Crashed _) => True
  | _ => False
  end.

End Dispatch.

(** The (index, move) pairs of the moves that carry a judgment label. *)
Fixpoint labeled_from (idx : nat) (moves : list AnalyzedMove) : list (nat * AnalyzedMove) :=
  match moves with
  | [] => []
  | mv :: r =>
    match Classifier.judgmentName mv with
    | Some _ => (idx, mv) :: labeled_from (S idx) r
    | None => labeled_from (S idx) r
    end
  end.

(** Sample inputs. *)
Module Samples.

Definition evalMove (p c : Z) : AnalyzedMove := mkMove (Some p) (Some (mkEval (Some c) None)) None.
Definition bareMove (p : Z) : AnalyzedMove := mkMove (Some p) None None.
Definition game (id opening : string) (moves : list AnalyzedMove) (pos : list (Z * Fen)) : Game :=
  mkGame (Some id) (Some opening) None None None None moves pos.
Definition noOptions : Options := mkOptions None None.

(** Three board states after 1. e4 e5 (FEN fields abridged). *)
Definition start : Fen := mkFen "rnbqkbnr/pppppppp/8/8/8/8/PPPPPPPP/RNBQKBNR" "w" "KQkq" "-" "0" "1".
Definition afterE4 : Fen := mkFen "rnbqkbnr/pppppppp/8/8/4P3/8/PPPP1PPP/RNBQKBNR" "b" "KQkq" "e3" "0" "1".
Definition afterE5 : Fen := mkFen "rnbqkbnr/pppp1ppp/8/4p3/4P3/8/PPPP1PPP/RNBQKBNR" "w" "KQkq" "e6" "0" "2".

Definition line : list (Z * Fen) := [(0, start); (1, afterE4); (2, afterE5)].

(** A second-side move that takes the evaluation from 0 to -300. *)
Definition c1_game : Game := game "g1" "Sicilian" [evalMove 1 0; evalMove 2 (-300)] [].

(** An evaluation carrying a mate score next to its [cp]. *)
Definition mateMove (p c m : Z) : AnalyzedMove :=
  mkMove (Some p) (Some (mkEval (Some c) (Some m))) None.
Definition c9_game : Game := game "g9" "French" [evalMove 1 0; mateMove 2 300 2] [].

(** A game with one judgment label and an unlabelled 900 cp swing. *)
Definition c10_game : Game :=
  game "g10" "Caro-Kann"
    [mkMove (Some 1) (Some (mkEval (Some 0) None)) (Some (mkJudgment (Some "Mistake") (Some 180)));
     evalMove 2 900] [].

(** An evaluated game of one opening and an unevaluated game of another
    opening that reaches the same board states. *)
Definition c6_italian : Game := game "A" "Italian" [evalMove 1 0; evalMove 2 300] line.
Definition c6_ruy : Game := game "B" "Ruy" [bareMove 1; bareMove 2] line.
Definition c6_options : Options := mkOptions None (Some "Ruy").
Definition c6_event : Event := mkEvent "B" 1 2 Black (Some 300) (Some Blunder) true.

(** The board states of 1. Nf3 Nf6 2. Ng1 Ng8 3. Nf3 and of 1. Nf3 Nf6
    2. Rg1 Ng8 3. Rh1, as chess.js prints them.  Both lines end on the
    same placement, side to move and clocks; the rook's trip costs White
    the king-side castling right. *)
Definition nf3 : Fen := mkFen "rnbqkbnr/pppppppp/8/8/8/5N2/PPPPPPPP/RNBQKB1R" "b" "KQkq" "-" "1" "1".
Definition nf6 : Fen := mkFen "rnbqkb1r/pppppppp/5n2/8/8/5N2/PPPPPPPP/RNBQKB1R" "w" "KQkq" "-" "2" "2".
Definition ng1 : Fen := mkFen "rnbqkb1r/pppppppp/5n2/8/8/8/PPPPPPPP/RNBQKBNR" "b" "KQkq" "-" "3" "2".
Definition ng8 : Fen := mkFen "rnbqkbnr/pppppppp/8/8/8/8/PPPPPPPP/RNBQKBNR" "w" "KQkq" "-" "4" "3".
Definition nf3_again : Fen := mkFen "rnbqkbnr/pppppppp/8/8/8/5N2/PPPPPPPP/RNBQKB1R" "b" "KQkq" "-" "5" "3".
Definition rg1 : Fen := mkFen "rnbqkb1r/pppppppp/5n2/8/8/5N2/PPPPPPPP/RNBQKBR1" "b" "Qkq" "-" "3" "2".
Definition ng8_rook : Fen := mkFen "rnbqkbnr/pppppppp/8/8/8/5N2/PPPPPPPP/RNBQKBR1" "w" "Qkq" "-" "4" "3".
Definition rh1 : Fen := mkFen "rnbqkbnr/pppppppp/8/8/8/5N2/PPPPPPPP/RNBQKB1R" "b" "Qkq" "-" "5" "3".

(** [computePositions] of the two games: [positions.set(0, engine.fen())]
    runs after [loadPgn], so ply 0 holds the final position; plies 1..5
    come from the replay. *)
Definition knights_line : list (Z * Fen) :=
  [(0, nf3_again); (1, nf3); (2, nf6); (3, ng1); (4, ng8); (5, nf3_again)].
Definition rook_line : list (Z * Fen) :=
  [(0, rh1); (1, nf3); (2, nf6); (3, rg1); (4, ng8_rook); (5, rh1)].

(** An evaluated knights game whose ply 5 loses 300 cp, an unevaluated
    rook game and an unevaluated knights game, all of one opening. *)
Definition c5_source : Game :=
  game "A" "Zukertort Opening"
    [evalMove 1 20; evalMove 2 20; evalMove 3 20; evalMove 4 20; evalMove 5 (-280)] knights_line.
Definition c5_target : Game := game "B" "Zukertort Opening" [] rook_line.
Definition c5_target_same : Game := game "C" "Zukertort Opening" [] knights_line.
Definition c5_options : Options := mkOptions None (Some "Zukertort Opening").
Definition c5_event : Event := mkEvent "C" 3 5 White (Some 300) (Some Blunder) true.

(** Two games without an id, of different openings. *)
Definition c4_noid_italian : Game := mkGame None (Some "Italian") None None None None [] [].
Definition c4_noid_ruy : Game := mkGame None (Some "Ruy") None None None None [] [].
Definition c4_a : Game := game "a" "Italian" [evalMove 1 0] [].
Definition c4_b : Game := game "b" "Ruy" [] [].

(** The letter e with an acute accent in UTF-8, as the single code point
    U+00E9 and as "e" followed by the combining accent U+0301: two
    different strings that are canonically equivalent. *)
Definition e_acute_composed : string :=
  String (ascii_of_nat 195) (String (ascii_of_nat 169) EmptyString).
Definition e_acute_decomposed : string :=
  String (ascii_of_nat 101) (String (ascii_of_nat 204) (String (ascii_of_nat 129) EmptyString)).

(** A collation that, like [localeCompare], orders canonically equivalent
    strings as equal: the decomposed form is compared as the composed one. *)
Definition canon (s : string) : string :=
  if String.eqb s e_acute_decomposed then e_acute_composed else s.
Definition localeCompare_canon (a b : string) : comparison := String.compare (canon a) (canon b).

(** Two games whose ids are the two forms of the accented letter. *)
Definition c4_composed : Game := game e_acute_composed "Italian" [] [].
Definition c4_decomposed : Game := game e_acute_decomposed "Ruy" [] [].

(** Two games between four different players; in the second one Black
    loses 300 cp on ply 2. *)
Definition c7_g1 : Game := mkGame (Some "g1") (Some "Italian") (Some "a") (Some "b") (Some "a") (Some "b")
                             [evalMove 1 0; evalMove 2 10] [].
Definition c7_g2 : Game := mkGame (Some "g2") (Some "Italian") (Some "c") (Some "d") (Some "c") (Some "d")
                             [evalMove 1 0; evalMove 2 300] [].

End Samples.

(** What the code checks before it emits a bootstrapped event [e]: a game
    [g] of [games] that is unevaluated, has a non-empty id, and whose
    opening is [restrict]; a board state [f] at ply [e_ply e <> 0] of [g];
    and a raw label (of any evaluated game, of any opening) whose board
    state has the same FEN and whose ply has the parity of [e_ply e]. *)
Definition bootstrap_justified (games : list Game) (restrict : string)
    (rawLabels : list RawLabel) (e : Event) : Prop :=
  let pbg := Bootstrap.positionsByGame games restrict rawLabels in
  e_boot e = true /\ e_ply e <> 0 /\ e_side e = Classifier.sideOf (e_ply e) /\
  exists g pos f lbl pos' f',
    In g games /\ Bootstrap.gameIsEvaluated g = false /\
    Classifier.gameId g = e_gameId e /\ Js.truthy (Classifier.gameId g) = true /\
    Bootstrap.openingOf (Bootstrap.openingByGame games) (Classifier.gameId g) = restrict /\
    pbg !! Classifier.gameId g = Some pos /\ In (e_ply e, f) pos /\
    In lbl rawLabels /\ pbg !! l_gameId lbl = Some pos' /\
    Bootstrap.pos_get (l_ply lbl) pos' = Some f' /\ fen f' = fen f /\
    Classifier.sideOf (l_ply lbl) = Classifier.sideOf (e_ply e).

(** The raw labels of a classification run. *)
Definition rawLabelsOf (games : list Game) (o : Options) : list RawLabel :=
  snd (Classifier.classify (Classifier.normalizedTarget (onlyForUsername o)) games
         (empty_summary, [])).

(* ------------------------------------------------------------------ *)
(** ** Sums over the per-opening count objects *)

(** The sum of the values of a count object such as [mistakesByOpening]. *)
Definition count_total (m : gmap string nat) : nat :=
  map_fold (fun _ v acc => (v + acc)%nat) 0%nat m.

(** The entries of a top list that carry [kind: 'blunder']. *)
Definition blunder_entries (l : list Event) : list Event :=
  List.filter (fun e => match e_kind e with Some Blunder => true | _ => false end) l.

(* ------------------------------------------------------------------ *)
(** ** [analyzeGamesWithPrecomputedData] (server analysis.js) *)

Module Precomputed.
Import Js Classifier.

(** An entry pushed by the first pass: [side] from the parity of the
    ply, [centipawnLoss] when defined, [kind] on [topMistakes] entries. *)
Definition entry (gid : string) (p : Z) (cp : option Z) (k : option Kind) : Event :=
  mkEvent gid (ceil_half p) p (sideOf p) cp k false.

(** Body of [analyzedMoves.forEach]: every labelled move goes to
    [topMistakes], a blunder also to [topBlunders]. *)
Definition label_step (ts : option Side) (gid key : string) (s : Summary)
    (idx : nat) (mv : AnalyzedMove) : Summary :=
  match judgmentName mv with
  | None => s
  | Some judgment =>
    let p := plyValue mv idx in
    let centipawnLoss := judgmentCp mv in
    if skipForTarget ts p then s else
    let name := toLowerCase judgment in
    if String.eqb name "inaccuracy" then
      push_mistake (entry gid p centipawnLoss (Some Inaccuracy)) (bump_mbo key (bump_inacc s))
    else if String.eqb name "mistake" then
      push_mistake (entry gid p centipawnLoss (Some Mistake)) (bump_mbo key (bump_mist s))
    else if String.eqb name "blunder" then
      push_mistake (entry gid p centipawnLoss (Some Blunder))
        (push_blunder (entry gid p centipawnLoss None)
           (bump_bbo key (bump_mbo key (bump_blun s))))
    else s
  end.

Fixpoint label_pass_from (ts : option Side) (gid key : string) (idx : nat)
    (moves : list AnalyzedMove) (s : Summary) : Summary :=
  match moves with
  | [] => s
  | mv :: rest => label_pass_from ts gid key (S idx) rest (label_step ts gid key s idx mv)
  end.

(** Body of [for (let i = 1; i < evals.length; i++)]: the username filter,
    then [lossForMover(prev, curr, plyValue)] against 250 / 150 / 60. *)
Definition eval_step (ts : option Side) (gid key : string) (s : Summary)
    (i : nat) (prev curr : AnalyzedMove) : Summary :=
  let p := plyValue curr i in
  if skipForTarget ts p then s else
  let d := lossForMover prev curr p in
  let cp := if 0 <? d then Some d else None in
  if 250 <=? d then
    push_mistake (entry gid p cp (Some Blunder))
      (push_blunder (entry gid p cp None) (bump_bbo key (bump_mbo key (bump_blun s))))
  else if 150 <=? d then
    push_mistake (entry gid p cp (Some Mistake)) (bump_mbo key (bump_mist s))
  else if 60 <=? d then
    push_mistake (entry gid p cp (Some Inaccuracy)) (bump_mbo key (bump_inacc s))
  else s.

Fixpoint eval_pass_from (ts : option Side) (gid key : string) (i : nat)
    (prev : AnalyzedMove) (rest : list AnalyzedMove) (s : Summary) : Summary :=
  match rest with
  | [] => s
  | curr :: rest' => eval_pass_from ts gid key (S i) curr rest' (eval_step ts gid key s i prev curr)
  end.

Definition eval_pass (ts : option Side) (gid key : string) (moves : list AnalyzedMove)
    (s : Summary) : Summary :=
  match moves with
  | [] => s
  | m0 :: rest => eval_pass_from ts gid key 1 m0 rest s
  end.

(** One iteration of the first pass [for (const game of games)]. *)
Definition game_step (target : string) (s : Summary) (g : Game) : Summary :=
  let key := openingName g in
  let gid := gameId g in
  let moves := g_analysis g in
  let ts := targetSide target g in
  let s1 := label_pass_from ts gid key 0 moves s in
  if negb (hasJudgments moves) && negb (Nat.eqb (length moves) 0) then
    eval_pass ts gid key moves s1
  else s1.

(** The first pass ("analyze moves and collect blunders"). *)
Definition firstPass (games : list Game) (o : Options) : Summary :=
  fold_left (game_step (normalizedTarget (onlyForUsername o))) games empty_summary.

(** [samples[key]] of [computeRecurringPatterns]. *)
Record Sample := mkSample {
  sm_gameId : string;
  sm_moveNumber : Z;
  sm_opening : string;
  sm_move : string
}.

(** An element of [recurringPatterns]. *)
Record Pattern := mkPattern {
  pt_key : string;
  pt_opening : string;
  pt_move : string;
  pt_count : nat;
  pt_sample : option Sample
}.

(** The SAN placeholder of [computeRecurringPatterns], the em dash
    U+2014, as its three UTF-8 bytes. *)
Definition em_dash : string :=
  String (ascii_of_nat 226) (String (ascii_of_nat 128) (String (ascii_of_nat 148) EmptyString)).

(** [s.split('||')]: the pieces between the non-overlapping occurrences
    of ["||"], found from left to right; [cur] is the piece being read. *)
Fixpoint split_bars (s cur : string) : list string :=
  match s with
  | EmptyString => [cur]
  | String c rest =>
    let next := split_bars rest (String.append cur (String c EmptyString)) in
    if Ascii.eqb c "|" then
      match rest with
      | String c' rest' => if Ascii.eqb c' "|" then cur :: split_bars rest' "" else next
      | EmptyString => next
      end
    else next
  end.

(** [summary.verboseMovesByGame]: for every game with a non-empty id, the
    SANs of [computeVerboseMoves(game)]; that chess.js replay is the
    parameter [verbose]. *)
Definition verboseMovesByGame (verbose : Game -> list string) (games : list Game)
    : gmap string (list string) :=
  fold_left (fun m g => if truthy (gameId g) then <[gameId g := verbose g]> m else m) games ∅.

(** Body of [for (const b of topBlunders)]: [counts] is an object whose
    keys contain ["||"], so never integer-like: it iterates in insertion
    order. *)
Definition pattern_step (gameMap : gmap string Game) (vm : gmap string (list string))
    (acc : list (string * nat) * gmap string Sample) (b : Event)
    : list (string * nat) * gmap string Sample :=
  let '(counts, samples) := acc in
  match gameMap !! e_gameId b with
  | None => acc
  | Some game =>
    let opening := openingName game in
    let gid := gameId game in
    let verbose := default [] (vm !! gid) in
    let plyIndex := Z.max 0 (Z.min (Z.of_nat (length verbose) - 1) (e_moveNumber b * 2 - 2)) in
    let san := default em_dash (nth_error verbose (Z.to_nat plyIndex)) in
    let key := String.append opening (String.append "||" san) in
    (Orchestrator.count_bump key counts,
     match samples !! key with
     | Some _ => samples
     | None => <[key := mkSample gid (e_moveNumber b) opening san]> samples
     end)
  end.

(** [computeRecurringPatterns(games, topBlunders, verboseMovesByGame)]:
    [gameMap] is built as [gameById]; the entries of [counts], each split
    back into [opening] and [move] ([const [opening, move] = key.split('||')]),
    sorted by count, descending (stable). *)
Definition computeRecurringPatterns (games : list Game) (tb : list Event)
    (vm : gmap string (list string)) : list Pattern :=
  let '(counts, samples) := fold_left (pattern_step (Bootstrap.gameById games) vm) tb ([], ∅) in
  sort_desc (fun p => Z.of_nat (pt_count p))
    (map (fun '(key, count) =>
            let parts := split_bars key "" in
            mkPattern key (nth 0 parts "") (nth 1 parts "") count (samples !! key)) counts).

(** The result of [analyzeGamesWithPrecomputedData] ([positionsByGame],
    the FENs of chess.js, is left out). *)
Record Result := mkResult {
  r_summary : Summary;
  r_patterns : list Pattern;
  r_verbose : gmap string (list string)
}.

(** The patterns are computed from [topBlunders] before the final sort. *)
Definition analyzeGamesWithPrecomputedData (verbose : Game -> list string)
    (games : list Game) (o : Options) : Result :=
  let s := firstPass games o in
  let vm := verboseMovesByGame verbose games in
  mkResult (finalize s) (computeRecurringPatterns games (topBlunders s) vm) vm.

End Precomputed.

(* ------------------------------------------------------------------ *)
(** ** Work split of [analyzeWithParallelWorkers] (index.ts) *)

Module Parallel.
Import Js Classifier.

(** [options?.bootstrapOpening ? 1 : Math.min(numCPUs, 8)] *)
Definition numWorkers (cpus : nat) (o : Options) : nat :=
  match bootstrapOpening o with
  | Some r => if truthy r then 1%nat else Nat.min cpus 8
  | None => Nat.min cpus 8
  end.

(** The prefilter: with a bootstrap opening, the games whose
    [String(g?.opening?.name ?? 'Unknown')] is that opening. *)
Definition workingSet (games : list Game) (o : Options) : list Game :=
  match bootstrapOpening o with
  | Some r => if truthy r then List.filter (fun g => String.eqb (openingName g) r) games
              else games
  | None => games
  end.

(** [workingSet.slice(i, j)] *)
Definition slice (ws : list Game) (i j : nat) : list Game := firstn (j - i) (skipn i ws).

(** [for (let i = 0; i < workingSet.length; i += chunkSize)
       chunks.push(workingSet.slice(i, i + chunkSize))];
    [fuel] bounds the number of iterations. *)
Fixpoint slices (ws : list Game) (size i fuel : nat) : list (list Game) :=
  match fuel with
  | O => []
  | S f => if (i <? length ws)%nat then slice ws i (i + size) :: slices ws size (i + size) f
           else []
  end.

(** The chunks for [nw] workers, [chunkSize = Math.ceil(length / nw)].
    When [os.cpus()] is empty, [nw = 0] and [chunkSize] is [Infinity]
    (one chunk) or, for an empty set, [NaN] (no chunk). *)
Definition chunks (nw : nat) (ws : list Game) : list (list Game) :=
  if Nat.eqb nw 0 then (if Nat.eqb (length ws) 0 then [] else [ws])
  else slices ws ((length ws + nw - 1) / nw)%nat 0 (length ws).

(** [analyzeWithParallelWorkers(games, options)] on a machine with [cpus]
    cores: one worker per chunk, driven by the events of [trace]. *)
Definition run (cpus : nat) (games : list Game) (o : Options)
    (trace : list (nat * Dispatch.WorkerEvent)) : Dispatch.Outcome :=
  Dispatch.analyzeWithParallelWorkers
    (length (chunks (numWorkers cpus o) (workingSet games o))) trace.

(** Every worker [i] settles first with the result worker-thread.js
    computes for its chunk. *)
Definition workers_reply (o : Options) (cs : list (list Game))
    (trace : list (nat * Dispatch.WorkerEvent)) : Prop :=
  forall i c, cs !! i = Some c ->
    Dispatch.first_settle i trace = Some (Dispatch.MsgResult (Orchestrator.worker o c)).

End Parallel.

(* ------------------------------------------------------------------ *)
(** ** [LruMemory] (analysis.ts) *)

Module Lru.
Section Lru.
Context {T : Type}.

(** The [Map] in insertion order and the bound.  The cache stores
    objects, never [undefined]. *)
Record Lru := mkLru { lru_entries : list (string * T); lru_max : Z }.

(** [new LruMemory(max)]: [this.max = Math.max(1, max)] *)
Definition create (max : Z) : Lru := mkLru [] (Z.max 1 max).

(** [Map.prototype.get] *)
Definition map_get (k : string) (m : list (string * T)) : option T :=
  option_map snd (find (fun kv => String.eqb kv.1 k) m).

(** [Map.prototype.delete] *)
Definition map_delete (k : string) (m : list (string * T)) : list (string * T) :=
  List.filter (fun kv => negb (String.eqb kv.1 k)) m.

(** [get(key)]: a hit is moved to the end of the order. *)
Definition get (k : string) (c : Lru) : option T * Lru :=
  match map_get k (lru_entries c) with
  | Some v => (Some v, mkLru (app (map_delete k (lru_entries c)) [(k, v)]) (lru_max c))
  | None => (None, c)
  end.

(** [set(key, value)]: delete, append, and drop the first key when the
    size exceeds the bound and that key is truthy. *)
Definition set (k : string) (v : T) (c : Lru) : Lru :=
  let m := app (map_delete k (lru_entries c)) [(k, v)] in
  if lru_max c <? Z.of_nat (length m) then
    match m with
    | (first, _) :: _ => if Js.truthy first then mkLru (map_delete first m) (lru_max c)
                         else mkLru m (lru_max c)
    | [] => mkLru m (lru_max c)
    end
  else mkLru m (lru_max c).

End Lru.
Arguments Lru : clear implicits.
End Lru.

(* ------------------------------------------------------------------ *)
(** ** [SummaryCache] with its memory tier and data log *)

Module Store.

(** The value of the memory tier and of [tryGet]. *)
Record MemVal := mkMemVal { mv_summary : Summary; mv_createdAt : Z; mv_version : Z }.

(** A record of the data log, [JSON.stringify({ key, createdAt, version,
    summary })]. *)
Record Rec := mkRec { r_key : string; r_createdAt : Z; r_version : Z; r_summary : Summary }.

(** The disk tier of [Cache], the data log as the appended gzip members
    [(offset, length, record)], the memory tier and the hit, miss and
    write counters. *)
Record Store := mkStore {
  disk : Cache.Cache;
  log : list (Z * Z * Rec);
  memory : Lru.Lru MemVal;
  hits : nat;
  misses : nat;
  writes : nat
}.

(** [this.index[key]] *)
Fixpoint obj_get (k : string) (m : list (string * Cache.Entry)) : option Cache.Entry :=
  match m with
  | [] => None
  | (k', v) :: r => if String.eqb k k' then Some v else obj_get k r
  end.

(** [readSync] of [length] bytes at [offset], then [gunzipSync] and
    [JSON.parse]: a read of exactly one appended member gives its record
    back; any other read is taken as the exception that [tryGet] catches. *)
Definition read_log (l : list (Z * Z * Rec)) (off len : Z) : option Rec :=
  option_map snd (find (fun ch => (Z.eqb ch.1.1 off && Z.eqb ch.1.2 len)%bool) l).

(** [save(key, { summary, version })] at time [now], the record taking
    [gzLength] compressed bytes.  The eviction at its end touches neither
    the memory tier nor the log, so [Cache.save] runs it last as the
    source does. *)
Definition save (st : Store) (k : string) (summary : Summary) (pversion : option Z)
    (now gzLength : Z) : Store :=
  let version := Cache.savedVersion (disk st) k pversion in
  mkStore (Cache.save (disk st) k pversion now gzLength)
    (app (log st) [(Cache.dataSize (disk st), gzLength, mkRec k now version summary)])
    (Lru.set k (mkMemVal summary now version) (memory st))
    (hits st) (misses st) (S (writes st)).

(** [tryGet(key)]: memory first, then the index and the data log. *)
Definition tryGet (st : Store) (k : string) : option MemVal * Store :=
  match Lru.get k (memory st) with
  | (Some v, mem) => (Some v, mkStore (disk st) (log st) mem (S (hits st)) (misses st) (writes st))
  | (None, mem) =>
    match obj_get k (Cache.index (disk st)) with
    | None => (None, mkStore (disk st) (log st) mem (hits st) (S (misses st)) (writes st))
    | Some idx =>
      match read_log (log st) (Cache.en_offset idx) (Cache.en_length idx) with
      | Some r =>
        let out := mkMemVal (r_summary r) (Cache.en_createdAt idx) (Cache.en_version idx) in
        (Some out, mkStore (disk st) (log st) (Lru.set k out mem) (S (hits st)) (misses st)
                     (writes st))
      | None => (None, mkStore (disk st) (log st) mem (hits st) (S (misses st)) (writes st))
      end
    end
  end.



End Store.

(* ------------------------------------------------------------------ *)
(** ** Invariants of the summaries *)

(** The counts of a summary agree with its lists and per-opening objects
    ([analyzeGames]): the per-opening mistakes sum to all three totals,
    the per-opening blunders to the blunders, and each blunder is either
    a [topBlunders] entry or a bootstrapped [topMistakes] entry of kind
    blunder. *)
Definition count_inv (s : Summary) : Prop :=
  count_total (mistakesByOpening s) = (inaccuracies s + mistakes s + blunders s)%nat /\
  count_total (blundersByOpening s) = blunders s /\
  blunders s = (length (topBlunders s) + length (blunder_entries (topMistakes s)))%nat.

(** [moveNumber] and [side] of an entry are those of its ply. *)
Definition event_shape (e : Event) : Prop :=
  e_moveNumber e = Js.ceil_half (e_ply e) /\ e_side e = Classifier.sideOf (e_ply e).



(** A [topBlunders] entry of the classifier for game [g]: its id, shape,
    side allowed by the username filter, and its origin: a judgment label
    of [g], or a raw-evaluation loss of at least 250. *)
Definition blunder_from (target : string) (g : Game) (e : Event) : Prop :=
  e_gameId e = Classifier.gameId g /\ event_shape e /\
  Classifier.skipForTarget (Classifier.targetSide target g) (e_ply e) = false /\
  (Classifier.hasJudgments (g_analysis g) = true \/ exists d, e_cp e = Some d /\ 250 <= d).

(** [e] records the mover's loss between two consecutive analysis
    entries: both have a cp and no mate score, and [centipawnLoss] is the
    drop of the mover's evaluation (White moves on odd plies), at least
    60. *)
Definition mover_loss (e : Event) (prev curr : AnalyzedMove) : Prop :=
  exists pw cw, Classifier.evalCp prev = Some pw /\ Classifier.evalCp curr = Some cw /\
    Classifier.evalMate prev = None /\ Classifier.evalMate curr = None /\
    e_cp e = Some (if Js.odd_ply (e_ply e) then pw - cw else cw - pw) /\
    60 <= (if Js.odd_ply (e_ply e) then pw - cw else cw - pw).

(** No ['|'] in [s]. *)
Definition no_bar (s : string) : bool :=
  negb (existsb (fun c => Ascii.eqb c "|") (list_ascii_of_string s)).

(** [counts.get(n) ?? 0] on the [Map] of [deriveUsernameFromGames]. *)
Fixpoint counts_get (n : string) (m : list (string * nat)) : nat :=
  match m with
  | [] => 0%nat
  | (k, c) :: r => if String.eqb k n then c else counts_get n r
  end.

(** The number of games in whose name set [n] occurs. *)
Definition games_with_name (n : string) (all : list Game) : nat :=
  length (List.filter (fun g => existsb (String.eqb n) (Orchestrator.gameNameSet g)) all).

(** The memory tier within its bound: distinct non-empty keys, at most
    [max] of them. *)
Definition lru_wf {T} (c : Lru.Lru T) : Prop :=
  NoDup (map fst (Lru.lru_entries c)) /\
  Forall (fun kv => Js.truthy kv.1 = true) (Lru.lru_entries c) /\
  Z.of_nat (length (Lru.lru_entries c)) <= Lru.lru_max c.



(* ================================================================== *)
(** * Theorems *)

Import Samples.

(** Bootstrap helpers and classifier facts shared by the claims. *)

Lemma label_step_unlabeled ts gid key st idx mv :
  Classifier.judgmentName mv = None -> Classifier.label_step ts gid key st idx mv = st.
Proof. intros H. unfold Classifier.label_step. destruct st. by rewrite H. Qed.

Lemma label_pass_labeled ts gid key moves : forall idx st,
  Classifier.label_pass_from ts gid key idx moves st =
  fold_left (fun st '(i, mv) => Classifier.label_step ts gid key st i mv)
    (labeled_from idx moves) st.
Proof.
  induction moves as [|mv r IH]; intros idx st; simpl; [done|].
  destruct (Classifier.judgmentName mv) eqn:E; simpl; rewrite IH; [done|].
  by rewrite label_step_unlabeled.
Qed.

(** ** C1: the loss derived from raw evaluations *)

(** C1 (code_bug).  On the raw-evaluation path of [analyzeGames] the loss
    is [Math.abs(delta)], not the mover-centric loss: a second-side move
    that takes the first-mover evaluation from 0 to -300 (a gain for the
    mover, [max(0, delta) = 0]) is recorded as a 300 cp blunder of that
    move, while [lossForMover] of the sibling classifier gives 0. *)
Theorem c1_abs_delta_blames_mover :
  let s := analyzeGames [c1_game] noOptions in
  blunders s = 1%nat /\
  topBlunders s = [mkEvent "g1" 1 2 Black (Some 300) None false] /\
  lossForMover (evalMove 1 0) (evalMove 2 (-300)) 2 = 0 /\
  Z.max 0 ((-300) - 0) = 0.
Proof. vm_compute. repeat split; reflexivity. Qed.

(** ** C9: mate scores *)

(** C9 (code_bug).  The raw-evaluation path of [analyzeGames] never reads
    [mate]: a pair whose second entry is [{ cp: 300, mate: 2 }] (the
    [eval] shape of types.ts, [cp] required, [mate] optional) yields a
    300 cp blunder, while [lossForMover] of the sibling classifier skips
    the pair. *)
Theorem c9_mate_pair_classified :
  let s := analyzeGames [c9_game] noOptions in
  blunders s = 1%nat /\
  topBlunders s = [mkEvent "g9" 1 2 Black (Some 300) None false] /\
  Classifier.evalMate (mateMove 2 300 2) = Some 2 /\
  lossForMover (evalMove 1 0) (mateMove 2 300 2) 2 = 0.
Proof. vm_compute. repeat split; reflexivity. Qed.

(** ** C10: games with judgment labels *)

(** C10 (confirmed).  When some move of a game carries a judgment label,
    the game's contribution to the classification is the label-trusting
    step applied to the labelled moves only (the raw-evaluation
    derivation is skipped and unlabelled moves contribute nothing), and
    the bootstrap apply loop leaves the summary unchanged for it. *)
Theorem judged_game_ignores_unlabelled_moves (target : string) (st : St) (g : Game) :
  Classifier.hasJudgments (g_analysis g) = true ->
  Classifier.game_step target st g =
    fold_left (fun st '(i, mv) =>
                 Classifier.label_step (Classifier.targetSide target g)
                   (Classifier.gameId g) (Classifier.openingName g) st i mv)
      (labeled_from 0 (g_analysis g)) st /\
  (forall idx pbg obg r s, Bootstrap.apply_game idx pbg obg r s g = s).
Proof.
  intros H. split.
  - unfold Classifier.game_step. rewrite H. simpl. apply label_pass_labeled.
  - intros. unfold Bootstrap.apply_game, Bootstrap.gameIsEvaluated. by rewrite H.
Qed.

Lemma judged_game_ignores_unlabelled_moves_witness :
  Classifier.hasJudgments (g_analysis c10_game) = true /\
  Classifier.game_step "" (empty_summary, []) c10_game =
    fold_left (fun st '(i, mv) =>
                 Classifier.label_step (Classifier.targetSide "" c10_game)
                   (Classifier.gameId c10_game) (Classifier.openingName c10_game) st i mv)
      (labeled_from 0 (g_analysis c10_game)) (empty_summary, []).
Proof.
  split; [reflexivity|].
  apply (proj1 (judged_game_ignores_unlabelled_moves "" (empty_summary, []) c10_game eq_refl)).
Defined.

(** ** Facts about the stable sort *)

Section SortFacts.
Context {A : Type} (key : A -> Z).

Lemma insert_desc_perm (x : A) (l : list A) : insert_desc key x l ≡ₚ x :: l.
Proof.
  induction l as [|y l IH]; simpl; [done|].
  destruct (key y <=? key x); [done|].
  etrans; [apply perm_skip, IH|]. apply perm_swap.
Qed.

Lemma sort_desc_perm (l : list A) : sort_desc key l ≡ₚ l.
Proof.
  induction l as [|x l IH]; simpl; [done|].
  rewrite insert_desc_perm. by apply perm_skip.
Qed.

Lemma in_sort_desc (x : A) (l : list A) : In x (sort_desc key l) <-> In x l.
Proof.
  split; apply Permutation_in; [|symmetry]; apply sort_desc_perm.
Qed.

End SortFacts.

(** ** The classifier never writes [topMistakes] *)

Ltac solve_summary_field :=
  repeat match goal with
         | |- context [match ?c with _ => _ end] => destruct c
         end; reflexivity.

Lemma label_step_topMistakes ts gid key st idx mv :
  topMistakes (fst (Classifier.label_step ts gid key st idx mv)) = topMistakes (fst st).
Proof. destruct st as [s ls]. unfold Classifier.label_step. solve_summary_field. Qed.

Lemma eval_step_topMistakes ts gid key st i prev curr :
  topMistakes (fst (Classifier.eval_step ts gid key st i prev curr)) = topMistakes (fst st).
Proof. destruct st as [s ls]. unfold Classifier.eval_step. solve_summary_field. Qed.

Lemma game_step_topMistakes target st g :
  topMistakes (fst (Classifier.game_step target st g)) = topMistakes (fst st).
Proof.
  unfold Classifier.game_step.
  assert (HL : forall ts gid key moves idx st,
    topMistakes (fst (Classifier.label_pass_from ts gid key idx moves st)) = topMistakes (fst st)).
  { induction moves as [|mv r IH]; intros idx st'; simpl; [done|].
    rewrite IH. apply label_step_topMistakes. }
  assert (HE : forall ts gid key rest i prev st,
    topMistakes (fst (Classifier.eval_pass_from ts gid key i prev rest st)) = topMistakes (fst st)).
  { induction rest as [|c r IH]; intros i prev st'; simpl; [done|].
    rewrite IH. apply eval_step_topMistakes. }
  destruct (negb _ && negb _); [|apply HL].
  unfold Classifier.eval_pass. destruct (g_analysis g); [apply HL|].
  rewrite HE. apply HL.
Qed.

Lemma classify_topMistakes target games : forall st,
  topMistakes (fst (Classifier.classify target games st)) = topMistakes (fst st).
Proof.
  induction games as [|g r IH]; intros st; simpl; [done|].
  unfold Classifier.classify in *. rewrite IH. apply game_step_topMistakes.
Qed.

(** ** Where the entries of the position index come from *)

Section IndexSource.
Variable pbg : gmap string (list (Z * Fen)).
Variable labels : list RawLabel.

Lemma index_step_source (acc : gmap string Bootstrap.Aggregated) (lbl : RawLabel) :
  (forall k agg, acc !! k = Some agg ->
     exists l pos f, In l labels /\ pbg !! l_gameId l = Some pos /\
       Bootstrap.pos_get (l_ply l) pos = Some f /\ fen f = k /\ l_ply l = Bootstrap.a_ply agg) ->
  In lbl labels ->
  forall k agg, Bootstrap.index_step pbg acc lbl !! k = Some agg ->
     exists l pos f, In l labels /\ pbg !! l_gameId l = Some pos /\
       Bootstrap.pos_get (l_ply l) pos = Some f /\ fen f = k /\ l_ply l = Bootstrap.a_ply agg.
Proof.
  intros Hacc Hin k agg.
  unfold Bootstrap.index_step.
  destruct (pbg !! l_gameId lbl) as [pos|] eqn:Hp; [|apply Hacc].
  destruct (Bootstrap.pos_get (l_ply lbl) pos) as [f|] eqn:Hf; [|apply Hacc].
  destruct (acc !! fen f) as [ex|] eqn:He; rewrite lookup_insert; case_decide as Hk;
    try apply Hacc; intros [= <-]; subst k.
  - destruct (Bootstrap.severityRank (l_kind lbl) >? Bootstrap.severityRank (Bootstrap.a_kind ex)).
    + exists lbl, pos, f. done.
    + destruct (Hacc (fen f) ex He) as (l & pos' & f' & ? & ? & ? & ? & ?).
      exists l, pos', f'. done.
  - exists lbl, pos, f. done.
Qed.

Lemma fenIndex_source (k : string) (agg : Bootstrap.Aggregated) :
  Bootstrap.fenIndex pbg labels !! k = Some agg ->
  exists l pos f, In l labels /\ pbg !! l_gameId l = Some pos /\
    Bootstrap.pos_get (l_ply l) pos = Some f /\ fen f = k /\ l_ply l = Bootstrap.a_ply agg.
Proof.
  unfold Bootstrap.fenIndex.
  assert (Gen : forall ls acc,
    (forall k agg, acc !! k = Some agg ->
       exists l pos f, In l labels /\ pbg !! l_gameId l = Some pos /\
         Bootstrap.pos_get (l_ply l) pos = Some f /\ fen f = k /\ l_ply l = Bootstrap.a_ply agg) ->
    (forall l, In l ls -> In l labels) ->
    forall k agg, fold_left (Bootstrap.index_step pbg) ls acc !! k = Some agg ->
       exists l pos f, In l labels /\ pbg !! l_gameId l = Some pos /\
         Bootstrap.pos_get (l_ply l) pos = Some f /\ fen f = k /\ l_ply l = Bootstrap.a_ply agg).
  { induction ls as [|lbl ls IH]; intros acc Hacc Hls; simpl; [done|].
    apply IH; [|intros; apply Hls; by right].
    apply index_step_source; [done|]. apply Hls. by left. }
  apply Gen; [|done]. intros k' agg'. by rewrite lookup_empty.
Qed.

End IndexSource.

(** ** What the apply loop emits *)

Lemma topMistakes_bumps k s :
  topMistakes (bump_bbo k (bump_mbo k (bump_blun s))) = topMistakes s /\
  topMistakes (bump_mbo k (bump_mist s)) = topMistakes s /\
  topMistakes (bump_mbo k (bump_inacc s)) = topMistakes s.
Proof. done. Qed.

Lemma apply_pos_events idx gid3 opening (pos : list (Z * Fen)) : forall s e,
  In e (topMistakes (fold_left (Bootstrap.apply_ply idx gid3 opening) pos s)) ->
  In e (topMistakes s) \/
  (exists f agg, In (e_ply e, f) pos /\ e_ply e <> 0 /\ idx !! fen f = Some agg /\
     Classifier.sideOf (e_ply e) = Classifier.sideOf (Bootstrap.a_ply agg) /\
     e_gameId e = gid3 /\ e_boot e = true /\ e_side e = Classifier.sideOf (e_ply e)).
Proof.
  induction pos as [|[ply f] pos IH]; intros s e Hin; simpl in Hin; [by left|].
  destruct (IH _ _ Hin) as [H|(f' & agg & ? & ?)];
    [|right; exists f', agg; split; [by right|done]].
  unfold Bootstrap.apply_ply in H.
  destruct (Z.eqb ply 0) eqn:H0; [by left|].
  destruct (idx !! fen f) as [agg|] eqn:Hi; [|by left].
  destruct (negb _) eqn:Hs; [by left|].
  unfold push_mistake in H. simpl in H.
  assert (Hs' : Classifier.sideOf ply = Classifier.sideOf (Bootstrap.a_ply agg)).
  { destruct (Classifier.sideOf ply), (Classifier.sideOf (Bootstrap.a_ply agg)); done. }
  assert (Hk : In e (app (topMistakes s) [mkEvent gid3 (Js.ceil_half ply) ply
     (Classifier.sideOf ply) (Bootstrap.a_cp agg) (Some (Bootstrap.a_kind agg)) true]))
    by (destruct (Bootstrap.a_kind agg); exact H).
  clear H; rename Hk into H.
  apply in_app_or in H as [H|[<-|[]]]; [by left|].
  right. exists f, agg. simpl. split; [by left|]. split; [lia|]. done.
Qed.

Lemma apply_games_events games restrict rawLabels : forall gs s e,
  (forall g, In g gs -> In g games) ->
  In e (topMistakes (fold_left
          (Bootstrap.apply_game
             (Bootstrap.fenIndex (Bootstrap.positionsByGame games restrict rawLabels) rawLabels)
             (Bootstrap.positionsByGame games restrict rawLabels)
             (Bootstrap.openingByGame games) restrict) gs s)) ->
  In e (topMistakes s) \/ bootstrap_justified games restrict rawLabels e.
Proof.
  set (pbg := Bootstrap.positionsByGame games restrict rawLabels).
  induction gs as [|g gs IH]; intros s e Hgs Hin; simpl in Hin; [by left|].
  destruct (IH _ _ (fun g' H => Hgs g' (or_intror H)) Hin) as [H|H]; [|by right].
  unfold Bootstrap.apply_game in H.
  destruct (Bootstrap.gameIsEvaluated g) eqn:Hev; [by left|].
  destruct (negb (Js.truthy (Classifier.gameId g))) eqn:Ht; [by left|].
  destruct (negb (String.eqb _ restrict)) eqn:Ho; [by left|].
  destruct (pbg !! Classifier.gameId g) as [pos|] eqn:Hp; [|by left].
  destruct (apply_pos_events _ _ _ _ _ _ H)
    as [H'|(f & agg & Hf & Hply & Hi & Hside & Hgid & Hboot & Hes)]; [by left|].
  right.
  destruct (fenIndex_source _ _ _ _ Hi) as (lbl & pos' & f' & Hl & Hp' & Hg' & Hff & Hla).
  repeat split; try done.
  exists g, pos, f, lbl, pos', f'.
  apply negb_false_iff in Ht. apply negb_false_iff, String.eqb_eq in Ho.
  repeat split; try done.
  - by apply Hgs; left.
  - by rewrite Hla, Hside.
Qed.

(** C6 (amended).  Every bootstrapped event in [topMistakes] comes from an unevaluated
    game with a non-empty id whose opening is the requested bootstrap
    opening, at a ply whose FEN is the FEN at the ply of some raw label of
    an evaluated game (of any opening), with the same side to move. *)
Theorem bootstrapped_event_conditions games o e :
  In e (topMistakes (analyzeGames games o)) -> e_boot e = true ->
  exists r, bootstrapOpening o = Some r /\ Js.truthy r = true /\
    bootstrap_justified games r (rawLabelsOf games o) e.
Proof.
  unfold analyzeGames, rawLabelsOf.
  pose proof (classify_topMistakes (Classifier.normalizedTarget (onlyForUsername o)) games
                (empty_summary, [])) as Hc.
  destruct (Classifier.classify _ games _) as [s labels]. simpl in Hc |- *.
  intros Hin Hb. apply in_sort_desc in Hin.
  destruct (bootstrapOpening o) as [r|]; [|rewrite Hc in Hin; destruct Hin].
  destruct (Js.truthy r) eqn:Hr; [|rewrite Hc in Hin; destruct Hin].
  exists r. split; [done|]. split; [done|].
  unfold Bootstrap.bootstrap in Hin.
  destruct (apply_games_events games r labels games s e (fun g H => H) Hin) as [H|H];
    [rewrite Hc in H; destruct H|done].
Qed.

Lemma bootstrapped_event_conditions_witness :
  In c6_event (topMistakes (analyzeGames [c6_italian; c6_ruy] c6_options)) /\
  e_boot c6_event = true /\
  exists r, bootstrapOpening c6_options = Some r /\ Js.truthy r = true /\
    bootstrap_justified [c6_italian; c6_ruy] r (rawLabelsOf [c6_italian; c6_ruy] c6_options)
      c6_event.
Proof.
  assert (H : In c6_event (topMistakes (analyzeGames [c6_italian; c6_ruy] c6_options)))
    by (vm_compute; left; reflexivity).
  split; [exact H|]. split; [reflexivity|].
  exact (bootstrapped_event_conditions [c6_italian; c6_ruy] c6_options c6_event H eq_refl).
Defined.

(** C6 (counterexample).  The Ruy game [B] receives a bootstrapped blunder
    at ply 2 although the only raw label whose position it matches comes
    from the Italian game [A]: the apply loop compares the game's opening
    with the requested bootstrap opening, never with the opening of the
    indexed judgment's source game. *)
Lemma c6_cross_opening_bootstrap :
  In c6_event (topMistakes (analyzeGames [c6_italian; c6_ruy] c6_options)) /\
  map l_opening (rawLabelsOf [c6_italian; c6_ruy] c6_options) = ["Italian"] /\
  Classifier.openingName c6_ruy = "Ruy" /\ "Ruy" <> "Italian".
Proof. vm_compute. split; [left; reflexivity|]. split; [reflexivity|]. split; [reflexivity|]. discriminate. Qed.

(** ** C5: the key of the bootstrap index *)

(** C5 (code_bug).  The bootstrap index is keyed by the whole FEN
    ([engine.fen()]), castling field included.  After 1. Nf3 Nf6 2. Ng1
    Ng8 3. Nf3 and after 1. Nf3 Nf6 2. Rg1 Ng8 3. Rh1 the two boards agree
    in placement, side to move, en-passant field and both clocks, and
    differ only in castling rights.  The unevaluated rook game gets no
    bootstrapped judgment from the labelled ply 5 of the evaluated knights
    game, while an unevaluated game of the knights line gets one. *)
Theorem c5_index_key_keeps_castling :
  fen nf3_again <> fen rh1 /\
  fen_placement nf3_again = fen_placement rh1 /\
  fen_active nf3_again = fen_active rh1 /\
  fen_ep nf3_again = fen_ep rh1 /\
  fen_half nf3_again = fen_half rh1 /\
  fen_full nf3_again = fen_full rh1 /\
  fen_castling nf3_again <> fen_castling rh1 /\
  topMistakes (analyzeGames [c5_source; c5_target] c5_options) = [] /\
  topMistakes (analyzeGames [c5_source; c5_target_same] c5_options) = [c5_event].
Proof.
  split; [vm_compute; discriminate|].
  do 5 (split; [reflexivity|]).
  split; [vm_compute; discriminate|].
  split; vm_compute; reflexivity.
Qed.

(** ** C8: a failing worker fails the batch *)

Lemma join_rejects i : forall trace (ps : list Dispatch.Promise),
  ps !! i = Some (None : Dispatch.Promise) -> Dispatch.worker_fails i trace ->
  exists e, Dispatch.join ps trace = inl (inr e).
Proof.
  unfold Dispatch.worker_fails.
  induction trace as [|[j ev] rest IH]; intros ps Hi Hf; cbn [Dispatch.join]; [done|].
  cbn [Dispatch.first_settle] in Hf.
  destruct (Nat.eqb_spec i j) as [Heq|Hne].
  - subst j. rewrite Hi.
    destruct ev; simpl in Hf |- *; try done; try (eexists; reflexivity).
    apply IH; [|done].
    rewrite list_lookup_insert_eq; [done|]. by apply lookup_lt_Some in Hi.
  - assert (Hk : forall p', <[j := p']> ps !! i = Some (None : Dispatch.Promise))
      by (intros; rewrite list_lookup_insert_ne; auto).
    destruct (ps !! j) as [p|]; [|by apply IH].
    destruct p as [r|]; [by apply IH|].
    destruct (Dispatch.settle None ev) as [[|]|]; [by apply IH|by eexists|by apply IH].
Qed.

(** C8 (confirmed).  If the first settling event of some dispatched worker
    is an error reply or a crash, the call rejects with an error and never
    resolves with a (partial) summary, whatever the other workers do. *)
Theorem failing_worker_fails_batch (n i : nat) (trace : list (nat * Dispatch.WorkerEvent)) :
  (i < n)%nat -> Dispatch.worker_fails i trace ->
  exists e, Dispatch.analyzeWithParallelWorkers n trace = Dispatch.Failed e /\
    forall s, Dispatch.analyzeWithParallelWorkers n trace <> Dispatch.Done s.
Proof.
  intros Hn Hf. unfold Dispatch.analyzeWithParallelWorkers.
  destruct (join_rejects i trace (replicate n None)) as [e He];
    [by apply lookup_replicate_2|done|].
  rewrite He. by exists e.
Qed.

Lemma failing_worker_fails_batch_witness :
  (1 < 2)%nat /\
  Dispatch.worker_fails 1 [(0%nat, Dispatch.MsgProgress); (1%nat, Dispatch.Crashed "worker exited");
                           (0%nat, Dispatch.MsgResult empty_summary)] /\
  exists e, Dispatch.analyzeWithParallelWorkers 2
              [(0%nat, Dispatch.MsgProgress); (1%nat, Dispatch.Crashed "worker exited");
               (0%nat, Dispatch.MsgResult empty_summary)] = Dispatch.Failed e /\
    forall s, Dispatch.analyzeWithParallelWorkers 2
              [(0%nat, Dispatch.MsgProgress); (1%nat, Dispatch.Crashed "worker exited");
               (0%nat, Dispatch.MsgResult empty_summary)] <> Dispatch.Done s.
Proof.
  assert (Hn : (1 < 2)%nat) by lia.
  assert (Hf : Dispatch.worker_fails 1 [(0%nat, Dispatch.MsgProgress);
                 (1%nat, Dispatch.Crashed "worker exited"); (0%nat, Dispatch.MsgResult empty_summary)])
    by (vm_compute; exact I).
  split; [exact Hn|]. split; [exact Hf|].
  exact (failing_worker_fails_batch 2 1 _ Hn Hf).
Defined.

(** ** C2: version numbers of [save] *)

Lemma sum_lens_nonneg ops : Forall (fun op => 0 <= snd op) ops -> 0 <= Cache.sum_lens ops.
Proof. induction 1; simpl; lia. Qed.

Lemma save_within_budget c k now len :
  Cache.dataSize c + len <= Cache.maxDiskBytes c ->
  Cache.save c k None now len =
    Cache.mkCache (Cache.obj_set k (Cache.mkEntry k (Cache.dataSize c) len now (Cache.getVersion c k + 1)
                                     len false) (Cache.index c))
      (<[k := Cache.getVersion c k + 1]> (Cache.versionMap c)) (Cache.dataSize c + len) (Cache.maxDiskBytes c).
Proof.
  intros H. unfold Cache.save, Cache.evictIfNeeded. simpl.
  by rewrite (proj2 (Z.leb_le _ _) H).
Qed.

(** As long as the data log stays within the byte budget,
    the saves of a key (without an explicit [payload.version]) record the
    consecutive versions [v + 1, v + 2, ...] where [v] is [getVersion] of
    the key before the first save: strictly increasing, and starting at 2
    for a key absent from [versionMap] ([getVersion] is then 1). *)
Theorem save_versions_consecutive (c : Cache.Cache) (k : string) (ops : list (Z * Z)) :
  Forall (fun op => 0 <= snd op) ops ->
  Cache.dataSize c + Cache.sum_lens ops <= Cache.maxDiskBytes c ->
  fst (Cache.save_all c k ops) =
    map (fun i => Cache.getVersion c k + Z.of_nat i) (seq 1 (length ops)).
Proof.
  revert c. induction ops as [|[now len] ops IH]; intros c Hpos Hb; [done|].
  inversion Hpos as [|? ? Hlen Hpos']; subst. simpl in Hlen, Hb.
  pose proof (sum_lens_nonneg ops Hpos') as Hs.
  specialize (IH (Cache.save c k None now len) Hpos').
  cbn [Cache.save_all]. unfold Cache.savedVersion.
  rewrite save_within_budget in IH |- * by lia. simpl in IH.
  specialize (IH ltac:(lia)).
  destruct (Cache.save_all _ k ops) as [vs c'] eqn:He. simpl in IH |- *. rewrite IH.
  unfold Cache.getVersion at 2. simpl. rewrite lookup_insert_eq. simpl.
  f_equal.
  rewrite <- (seq_shift _ 1), map_map. apply map_ext. intros i. rewrite Nat2Z.inj_succ. lia.
Qed.

Lemma save_versions_consecutive_witness :
  Forall (fun op => 0 <= snd op) [(1, 100); (2, 100); (3, 100)] /\
  Cache.dataSize (Cache.empty 1000) + Cache.sum_lens [(1, 100); (2, 100); (3, 100)]
    <= Cache.maxDiskBytes (Cache.empty 1000) /\
  fst (Cache.save_all (Cache.empty 1000) "k" [(1, 100); (2, 100); (3, 100)]) =
    map (fun i => Cache.getVersion (Cache.empty 1000) "k" + Z.of_nat i) (seq 1 3).
Proof.
  assert (H1 : Forall (fun op => 0 <= snd op) [(1, 100); (2, 100); (3, 100)])
    by (repeat constructor; simpl; lia).
  assert (H2 : Cache.dataSize (Cache.empty 1000) + Cache.sum_lens [(1, 100); (2, 100); (3, 100)]
                 <= Cache.maxDiskBytes (Cache.empty 1000)) by (simpl; lia).
  split; [exact H1|]. split; [exact H2|].
  exact (save_versions_consecutive (Cache.empty 1000) "k" _ H1 H2).
Defined.

(** C2 (code bug).  The [/api] route saves its summary without a
    [payload.version], under the comment "Save to cache with monotonic
    versioning".  With a 150-byte budget, three such saves of one key
    appending 100 bytes each record the versions 2, 3 and 2: the second
    save pushes the log over budget, so eviction deletes the key's counter
    from [versionMap] and the third save starts over; the versions of the
    key are not monotonic.  (The first save also records 2, not 1.) *)
Lemma c2_versions_restart_after_eviction :
  fst (Cache.save_all (Cache.empty 150) "k" [(1, 100); (2, 100); (3, 100)]) = [2; 3; 2].
Proof. vm_compute. reflexivity. Qed.

(** ** C3: eviction *)

Lemma evict_loop_over_budget (L : list Cache.Entry) : forall c,
  Cache.maxDiskBytes c < Cache.dataSize c ->
  forall kv, In kv (Cache.index (Cache.evict_loop L c)) <->
    In kv (Cache.index c) /\ Forall (fun ent => kv.1 <> Cache.en_key ent) L.
Proof.
  induction L as [|ent L IH]; intros c Hc kv; simpl.
  - intuition.
  - rewrite (proj2 (Z.leb_gt _ _) Hc).
    rewrite IH by exact Hc. simpl. unfold Cache.obj_delete.
    rewrite filter_In, Forall_cons, negb_true_iff, String.eqb_neq. tauto.
Qed.

(** Once the data log is over budget, [evictIfNeeded] removes every live
    entry from the index, whatever their ages: the loop re-reads the size
    of the data file, which deletions do not shrink, so it never breaks. *)
Lemma evict_clears_live_entries (c : Cache.Cache) :
  Cache.maxDiskBytes c < Cache.dataSize c ->
  Forall (fun kv => Cache.en_key kv.2 = kv.1) (Cache.index c) ->
  forall kv, In kv (Cache.index (Cache.evictIfNeeded c)) -> Cache.en_deleted kv.2 = true.
Proof.
  intros Hc Hk kv. unfold Cache.evictIfNeeded.
  rewrite (proj2 (Z.leb_gt _ _) Hc), evict_loop_over_budget by exact Hc.
  intros [Hin HL]. destruct (Cache.en_deleted kv.2) eqn:Hd; [done|].
  exfalso. rewrite List.Forall_forall in HL. rewrite List.Forall_forall in Hk.
  apply (HL kv.2); [|by rewrite (Hk kv Hin)].
  unfold Cache.liveByAge. apply in_sort_desc, filter_In. split; [|by rewrite Hd].
  by apply in_map.
Qed.

(** C3 (code_bug).  With a 150-byte budget, saving [k1] (100 bytes, at
    time 1) and then [k2] (100 bytes, at time 2) leaves the index empty:
    the newer entry alone fits the budget, yet it is evicted with the
    older one.  In general ([evict_clears_live_entries]) an over-budget
    log loses every live entry. *)
Theorem c3_eviction_drops_newest :
  let c := Cache.save (Cache.save (Cache.empty 150) "k1" None 1 100) "k2" None 2 100 in
  Cache.index c = [] /\ Cache.versionMap c = ∅ /\ 100 <= 150 /\
  Cache.index (Cache.save (Cache.empty 150) "k1" None 1 100) =
    [("k1", Cache.mkEntry "k1" 0 100 1 2 100 false)].
Proof.
  split; [vm_compute; reflexivity|]. split; [vm_compute; reflexivity|].
  split; [lia|]. vm_compute. reflexivity.
Qed.

(** ** C4: the cache key *)

Section SortById.
Variable cmp : string -> string -> comparison.
Hypothesis cmp_antisym : forall a b, cmp a b = CompOpp (cmp b a).
Hypothesis cmp_trans : forall a b c, cmp a b = Lt -> cmp b c = Lt -> cmp a c = Lt.


Lemma cmp_refl a : cmp a a = Eq.
Proof. pose proof (cmp_antisym a a). destruct (cmp a a); simpl in *; congruence. Qed.

Lemma insert_by_id_perm x l : CacheKey.insert_by_id cmp x l ≡ₚ x :: l.
Proof.
  induction l as [|y l IH]; simpl; [done|].
  destruct (cmp _ _); try done. rewrite IH. apply perm_swap.
Qed.

Lemma sort_by_id_perm l : CacheKey.sort_by_id cmp l ≡ₚ l.
Proof.
  induction l as [|x l IH]; simpl; [done|]. by rewrite insert_by_id_perm, IH.
Qed.

(** Two tuples the comparator does not report as equal. *)
Lemma cmp_distinct_sym x y :
  cmp (CacheKey.tuple_id x) (CacheKey.tuple_id y) <> Eq ->
  cmp (CacheKey.tuple_id y) (CacheKey.tuple_id x) <> Eq.
Proof. rewrite (cmp_antisym (CacheKey.tuple_id y)). by destruct (cmp _ _). Qed.

Lemma insert_by_id_sorted x l :
  StronglySorted (CacheKey.tuple_lt cmp) l ->
  Forall (fun y => cmp (CacheKey.tuple_id x) (CacheKey.tuple_id y) <> Eq) l ->
  StronglySorted (CacheKey.tuple_lt cmp) (CacheKey.insert_by_id cmp x l).
Proof.
  induction l as [|y l IH]; intros Hs Hd; simpl.
  - repeat constructor.
  - apply StronglySorted_inv in Hs as [Hs Hy].
    apply Forall_cons in Hd as [Hxy Hd].
    destruct (cmp (x.1.1) (y.1.1)) eqn:Hc.
    + exfalso. by apply Hxy.
    + constructor; [by constructor|]. constructor; [exact Hc|].
      eapply List.Forall_impl; [|exact Hy]. intros z Hz. eapply cmp_trans; [exact Hc|exact Hz].
    + constructor; [apply IH; done|].
      apply List.Forall_forall. intros z Hz.
      apply (Permutation_in _ (insert_by_id_perm x l)) in Hz as [<-|Hz].
      * unfold CacheKey.tuple_lt, CacheKey.tuple_id. by rewrite cmp_antisym, Hc.
      * exact (proj1 (List.Forall_forall _ _) Hy z Hz).
Qed.

Lemma sort_by_id_sorted l :
  ForallOrdPairs (fun x y => cmp (CacheKey.tuple_id x) (CacheKey.tuple_id y) <> Eq) l ->
  StronglySorted (CacheKey.tuple_lt cmp) (CacheKey.sort_by_id cmp l).
Proof.
  induction l as [|x l IH]; intros Hd; simpl; [constructor|].
  inversion Hd as [|? ? Hx Hd']; subst.
  apply insert_by_id_sorted; [by apply IH|].
  apply List.Forall_forall. intros y Hy.
  apply (Permutation_in _ (sort_by_id_perm l)) in Hy.
  exact (proj1 (List.Forall_forall _ _) Hx y Hy).
Qed.

Lemma distinct_perm l l' :
  l ≡ₚ l' ->
  ForallOrdPairs (fun x y => cmp (CacheKey.tuple_id x) (CacheKey.tuple_id y) <> Eq) l ->
  ForallOrdPairs (fun x y => cmp (CacheKey.tuple_id x) (CacheKey.tuple_id y) <> Eq) l'.
Proof.
  assert (HF : forall (P : CacheKey.Tuple -> Prop) l1 l2, l1 ≡ₚ l2 -> Forall P l1 -> Forall P l2).
  { intros P l1 l2 Hp H. apply List.Forall_forall. intros z Hz.
    apply (Permutation_in _ (Permutation_sym Hp)) in Hz.
    exact (proj1 (List.Forall_forall _ _) H z Hz). }
  induction 1 as [|x l l' Hp IH|x y l|l l' l'' _ IH1 _ IH2]; intros H.
  - done.
  - inversion H as [|? ? Hx H']; subst. constructor; [by apply (HF _ l)|by apply IH].
  - inversion H as [|? ? Hy H']; subst. inversion H' as [|? ? Hx H'']; subst.
    apply Forall_cons in Hy as [Hyx Hy].
    constructor; [constructor; [by apply cmp_distinct_sym|done]|].
    by constructor.
  - by apply IH2, IH1.
Qed.

Lemma strongly_sorted_perm_eq l1 : forall l2,
  StronglySorted (CacheKey.tuple_lt cmp) l1 -> StronglySorted (CacheKey.tuple_lt cmp) l2 -> l1 ≡ₚ l2 -> l1 = l2.
Proof.
  induction l1 as [|a l1 IH]; intros [|b l2] H1 H2 Hp.
  - done.
  - by apply Permutation_nil_cons in Hp.
  - symmetry in Hp. by apply Permutation_nil_cons in Hp.
  - apply StronglySorted_inv in H1 as [H1 Ha], H2 as [H2 Hb].
    assert (a = b) as <-.
    { destruct (decide (a = b)) as [|Hne]; [done|]. exfalso.
      assert (Ha' : In b l1).
      { destruct (Permutation_in b (Permutation_sym Hp) (or_introl eq_refl)) as [->|]; done. }
      assert (Hb' : In a l2).
      { destruct (Permutation_in a Hp (or_introl eq_refl)) as [->|]; done. }
      pose proof (proj1 (List.Forall_forall _ _) Ha b Ha') as Hab.
      pose proof (proj1 (List.Forall_forall _ _) Hb a Hb') as Hba.
      unfold CacheKey.tuple_lt in Hab, Hba. rewrite cmp_antisym, Hba in Hab. discriminate. }
    f_equal. apply IH; [done|done|]. by apply Permutation_cons_inv in Hp.
Qed.

Lemma sort_by_id_perm_invariant l l' :
  ForallOrdPairs (fun x y => cmp (CacheKey.tuple_id x) (CacheKey.tuple_id y) <> Eq) l ->
  l ≡ₚ l' -> CacheKey.sort_by_id cmp l = CacheKey.sort_by_id cmp l'.
Proof.
  intros Hnd Hp.
  assert (Hnd' := distinct_perm l l' Hp Hnd).
  apply strongly_sorted_perm_eq; [by apply sort_by_id_sorted|by apply sort_by_id_sorted|].
  by rewrite !sort_by_id_perm.
Qed.

End SortById.

Lemma distinct_map_tuples cmp (games : list Game) :
  ForallOrdPairs (fun g h => cmp (Classifier.gameId g) (Classifier.gameId h) <> Eq) games ->
  ForallOrdPairs (fun x y => cmp (CacheKey.tuple_id x) (CacheKey.tuple_id y) <> Eq)
    (map CacheKey.datasetTuple games).
Proof.
  induction 1 as [|g l Hg _ IH]; simpl; constructor; [|exact IH].
  apply List.Forall_forall. intros x Hx. apply in_map_iff in Hx as [h [<- Hh]].
  exact (proj1 (List.Forall_forall _ _) Hg h Hh).
Qed.

(** C4 (amended).  For a comparator that is a total preorder on ids (as
    [localeCompare] is), the key does not change under a permutation of a
    game list in which the comparator reports no two ids as equal
    (distinct strings may still compare equal, e.g. canonically
    equivalent ones); and two datasets with the same payload (hence,
    barring a SHA-256 collision, exactly those with the same key) have the
    same multiset of (id, opening, analysis length) tuples and the same
    options after [|| ''] (an absent option and an empty one are not told
    apart). *)
Theorem cache_key_depends_on_sorted_tuples (cmp : string -> string -> comparison)
    (Hanti : forall a b, cmp a b = CompOpp (cmp b a))
    (Htrans : forall a b c, cmp a b = Lt -> cmp b c = Lt -> cmp a c = Lt)
    (games games' : list Game) (o o' : Options) :
  (ForallOrdPairs (fun g h => cmp (Classifier.gameId g) (Classifier.gameId h) <> Eq) games ->
   games ≡ₚ games' ->
   forall digest, CacheKey.computeKeyFromDataset cmp digest games o =
                  CacheKey.computeKeyFromDataset cmp digest games' o) /\
  (CacheKey.payload cmp games o = CacheKey.payload cmp games' o' ->
   map CacheKey.datasetTuple games ≡ₚ map CacheKey.datasetTuple games' /\
   CacheKey.orEmpty (onlyForUsername o) = CacheKey.orEmpty (onlyForUsername o') /\
   CacheKey.orEmpty (bootstrapOpening o) = CacheKey.orEmpty (bootstrapOpening o')).
Proof.
  split.
  - intros Hnd Hp digest. unfold CacheKey.computeKeyFromDataset, CacheKey.payload.
    do 2 f_equal. apply sort_by_id_perm_invariant; try done.
    + by apply distinct_map_tuples.
    + by rewrite Hp.
  - unfold CacheKey.payload. intros [= Hs H1 H2]. split; [|done].
    by rewrite <- (sort_by_id_perm cmp (map _ games)), Hs, sort_by_id_perm.
Qed.

Lemma cache_key_depends_on_sorted_tuples_witness :
  let games := [c4_a; c4_b] in
  let games' := [c4_b; c4_a] in
  (forall a b, String.compare a b = CompOpp (String.compare b a)) /\
  (forall a b c, String.compare a b = Lt -> String.compare b c = Lt -> String.compare a c = Lt) /\
  ForallOrdPairs (fun g h => String.compare (Classifier.gameId g) (Classifier.gameId h) <> Eq) games /\
  games ≡ₚ games' /\
  CacheKey.computeKeyFromDataset String.compare (fun p => String.concat "," (map (fun t => t.1.1) (CacheKey.p_games p))) games noOptions =
  CacheKey.computeKeyFromDataset String.compare (fun p => String.concat "," (map (fun t => t.1.1) (CacheKey.p_games p))) games' noOptions.
Proof.
  intros games games'.
  assert (H2 : forall a b, String.compare a b = CompOpp (String.compare b a))
    by (intros a b; apply OrderedTypeEx.String_as_OT.cmp_antisym).
  assert (H3 : forall a b c, String.compare a b = Lt -> String.compare b c = Lt ->
                             String.compare a c = Lt).
  { intros a b c Hab Hbc. apply OrderedTypeEx.String_as_OT.cmp_lt.
    apply OrderedTypeEx.String_as_OT.cmp_lt in Hab, Hbc. eapply OrderedTypeEx.String_as_OT.lt_trans; eassumption. }
  assert (Hnd : ForallOrdPairs
                 (fun g h => String.compare (Classifier.gameId g) (Classifier.gameId h) <> Eq) games).
  { constructor; [constructor; [vm_compute; discriminate|constructor]|].
    constructor; constructor. }
  assert (Hp : games ≡ₚ games') by apply perm_swap.
  do 2 (split; [assumption|]). split; [exact Hnd|]. split; [exact Hp|].
  exact (proj1 (cache_key_depends_on_sorted_tuples String.compare H2 H3 games games'
                  noOptions noOptions) Hnd Hp _).
Defined.

(** C4 (counterexample).  Two id-less games of different openings give
    different payloads in the two orders (the stable sort keeps their
    input order).  So do two games whose ids are the composed and the
    decomposed form of an accented letter: the ids are different strings,
    but a collation that treats canonically equivalent strings as equal
    (a total preorder, as [localeCompare] is) reports them as equal, and
    the stable sort keeps their input order too.  Finally, leaving
    [onlyForUsername] out or setting it to the empty string gives the
    same payload, hence the same key. *)
Lemma c4_order_and_empty_option :
  CacheKey.payload String.compare [c4_noid_italian; c4_noid_ruy] noOptions <>
  CacheKey.payload String.compare [c4_noid_ruy; c4_noid_italian] noOptions /\
  e_acute_composed <> e_acute_decomposed /\
  localeCompare_canon e_acute_composed e_acute_decomposed = Eq /\
  (forall a b, localeCompare_canon a b = CompOpp (localeCompare_canon b a)) /\
  (forall a b c, localeCompare_canon a b = Lt -> localeCompare_canon b c = Lt ->
                 localeCompare_canon a c = Lt) /\
  CacheKey.payload localeCompare_canon [c4_composed; c4_decomposed] noOptions <>
  CacheKey.payload localeCompare_canon [c4_decomposed; c4_composed] noOptions /\
  CacheKey.payload String.compare [] noOptions =
  CacheKey.payload String.compare [] (mkOptions (Some "") None) /\
  noOptions <> mkOptions (Some "") None.
Proof.
  split; [vm_compute; discriminate|].
  split; [vm_compute; discriminate|].
  split; [vm_compute; reflexivity|].
  split; [intros a b; apply OrderedTypeEx.String_as_OT.cmp_antisym|].
  split.
  { intros a b c Hab Hbc. unfold localeCompare_canon in *.
    apply OrderedTypeEx.String_as_OT.cmp_lt.
    apply OrderedTypeEx.String_as_OT.cmp_lt in Hab, Hbc.
    eapply OrderedTypeEx.String_as_OT.lt_trans; eassumption. }
  split; [vm_compute; discriminate|].
  split; [vm_compute; reflexivity|discriminate].
Qed.

(** ** C7: merging the results of the workers *)

Section SortConcat.
Context {A : Type} (key : A -> Z).






Lemma insert_desc_sorted (x : A) (l : list A) :
  sorted_desc key l -> sorted_desc key (insert_desc key x l).
Proof.
  unfold sorted_desc. induction l as [|y l IH]; intros Hs; simpl.
  - repeat constructor.
  - destruct (key y <=? key x) eqn:Hyx.
    + constructor; [done|]. constructor. by apply Z.leb_le.
    + apply Sorted_inv in Hs as [Hs Hhd]. constructor; [by apply IH|].
      destruct l as [|z l]; simpl.
      * constructor. apply Z.leb_gt in Hyx. lia.
      * apply HdRel_inv in Hhd. destruct (key z <=? key x); constructor; [|done].
        apply Z.leb_gt in Hyx. lia.
Qed.

Lemma sort_desc_sorted (l : list A) : sorted_desc key (sort_desc key l).
Proof.
  induction l as [|x l IH]; simpl; [constructor|]. by apply insert_desc_sorted.
Qed.




End SortConcat.

(** *** The algebra of [merge_step] *)








(** Each statement of the classification loop commutes with adding the
    summary of earlier partitions. *)
Lemma incr_merge_counts k (m r : gmap string nat) :
  incr k (Orchestrator.merge_counts m r) = Orchestrator.merge_counts m (incr k r).
Proof.
  apply map_eq. intros i. unfold incr, Orchestrator.merge_counts.
  destruct (decide (k = i)) as [<-|Hne].
  - rewrite lookup_insert_eq, !lookup_union_with, lookup_insert_eq.
    destruct (m !! k), (r !! k); simpl; f_equal; lia.
  - rewrite lookup_insert_ne, !lookup_union_with, lookup_insert_ne by done. done.
Qed.

Section MergeCommutes.
Variable s : Summary.
Notation "s ⊕ r" := (Orchestrator.merge_step s r) (at level 50).

Lemma bump_inacc_merge r : bump_inacc (s ⊕ r) = s ⊕ bump_inacc r.
Proof. unfold bump_inacc, Orchestrator.merge_step. simpl. f_equal; lia. Qed.
Lemma bump_mist_merge r : bump_mist (s ⊕ r) = s ⊕ bump_mist r.
Proof. unfold bump_mist, Orchestrator.merge_step. simpl. f_equal; lia. Qed.
Lemma bump_blun_merge r : bump_blun (s ⊕ r) = s ⊕ bump_blun r.
Proof. unfold bump_blun, Orchestrator.merge_step. simpl. f_equal; lia. Qed.
Lemma bump_mbo_merge k r : bump_mbo k (s ⊕ r) = s ⊕ bump_mbo k r.
Proof. unfold bump_mbo, Orchestrator.merge_step. simpl. by rewrite incr_merge_counts. Qed.
Lemma bump_bbo_merge k r : bump_bbo k (s ⊕ r) = s ⊕ bump_bbo k r.
Proof. unfold bump_bbo, Orchestrator.merge_step. simpl. by rewrite incr_merge_counts. Qed.
Lemma push_blunder_merge e r : push_blunder e (s ⊕ r) = s ⊕ push_blunder e r.
Proof. unfold push_blunder, Orchestrator.merge_step. simpl. by rewrite app_assoc. Qed.
Lemma push_mistake_merge e r : push_mistake e (s ⊕ r) = s ⊕ push_mistake e r.
Proof. unfold push_mistake, Orchestrator.merge_step. simpl. by rewrite app_assoc. Qed.

End MergeCommutes.

Create Rewrite HintDb merge_db.
#[local] Hint Rewrite bump_inacc_merge bump_mist_merge bump_blun_merge bump_mbo_merge
  bump_bbo_merge push_blunder_merge push_mistake_merge : merge_db.
















(* ================================================================== *)
(** ** Invariants of the [analyzeGames] summary *)

Lemma count_total_empty : count_total ∅ = 0%nat.
Proof. unfold count_total. by rewrite map_fold_empty. Qed.

Lemma count_total_incr k m : count_total (incr k m) = S (count_total m).
Proof.
  unfold count_total, incr.
  destruct (m !! k) as [v|] eqn:E; simpl.
  - rewrite (map_fold_delete_L _ _ k v m); [| intros; lia | done].
    rewrite <- (insert_delete_eq m k).
    rewrite map_fold_insert_L; [lia | intros; lia | apply lookup_delete_eq].
  - rewrite map_fold_insert_L; [lia | intros; lia | done].
Qed.

Lemma filter_perm_length {A} (f : A -> bool) (l l' : list A) :
  l ≡ₚ l' -> length (List.filter f l) = length (List.filter f l').
Proof.
  induction 1; simpl; try lia.
  - destruct (f x); simpl; lia.
  - destruct (f x), (f y); simpl; lia.
Qed.

Lemma forall_perm {A} (P : A -> Prop) (l l' : list A) :
  l ≡ₚ l' -> Forall P l -> Forall P l'.
Proof.
  intros Hp H. apply List.Forall_forall. intros x Hx.
  eapply List.Forall_forall; [exact H|]. eapply Permutation_in; [|exact Hx].
  by apply Permutation_sym.
Qed.

(** A property of summaries kept by every update of the classifier. *)
Section ClassifierInvariant.
Variable P : Summary -> Prop.
Hypothesis P_inacc : forall k s, P s -> P (bump_mbo k (bump_inacc s)).
Hypothesis P_mist : forall k s, P s -> P (bump_mbo k (bump_mist s)).
Hypothesis P_blun : forall k gid p cp s, P s ->
  P (push_blunder (mkEvent gid (Js.ceil_half p) p (Classifier.sideOf p) cp None false)
       (bump_bbo k (bump_mbo k (bump_blun s)))).

Lemma label_step_P ts gid key st idx mv :
  P (fst st) -> P (fst (Classifier.label_step ts gid key st idx mv)).
Proof.
  destruct st as [s ls]. unfold Classifier.label_step. simpl. intros H.
  destruct (Classifier.judgmentName mv); [|done].
  destruct (Classifier.skipForTarget _ _); [done|].
  repeat (destruct (String.eqb _ _); [simpl; auto|]). done.
Qed.

Lemma eval_step_P ts gid key st i prev curr :
  P (fst st) -> P (fst (Classifier.eval_step ts gid key st i prev curr)).
Proof.
  destruct st as [s ls]. unfold Classifier.eval_step. simpl. intros H.
  destruct (Classifier.skipForTarget _ _); [done|].
  repeat (destruct (_ <=? _); [simpl; auto|]). done.
Qed.

Lemma classify_P target games : forall st,
  P (fst st) -> P (fst (Classifier.classify target games st)).
Proof.
  assert (HL : forall ts gid key moves idx st,
    P (fst st) -> P (fst (Classifier.label_pass_from ts gid key idx moves st))).
  { induction moves as [|mv r IH]; intros idx st H; simpl; [done|].
    apply IH, label_step_P, H. }
  assert (HE : forall ts gid key rest i prev st,
    P (fst st) -> P (fst (Classifier.eval_pass_from ts gid key i prev rest st))).
  { induction rest as [|c r IH]; intros i prev st H; simpl; [done|].
    apply IH, eval_step_P, H. }
  induction games as [|g r IH]; intros st H; simpl; [done|].
  unfold Classifier.classify in IH. apply IH.
  unfold Classifier.game_step.
  destruct (negb _ && negb _); [|by apply HL].
  unfold Classifier.eval_pass. destruct (g_analysis g); [by apply HL|].
  apply HE, HL, H.
Qed.

End ClassifierInvariant.

(** A property of summaries kept by every update of the apply loop. *)
Section BootstrapInvariant.
Variable P : Summary -> Prop.
Hypothesis P_boot : forall gid ply cp k opening s, P s ->
  P (push_mistake (mkEvent gid (Js.ceil_half ply) ply (Classifier.sideOf ply) cp (Some k) true)
       (match k with
        | Blunder => bump_bbo opening (bump_mbo opening (bump_blun s))
        | Mistake => bump_mbo opening (bump_mist s)
        | Inaccuracy => bump_mbo opening (bump_inacc s)
        end)).

Lemma bootstrap_P games r labels s : P s -> P (Bootstrap.bootstrap games r labels s).
Proof.
  unfold Bootstrap.bootstrap.
  generalize (Bootstrap.positionsByGame games r labels) as pbg.
  intros pbg. generalize (Bootstrap.fenIndex pbg labels) as idx. intros idx.
  generalize (Bootstrap.openingByGame games) as obg. intros obg.
  revert s. induction games as [|g gs IH]; intros s H; simpl; [done|].
  apply IH. unfold Bootstrap.apply_game.
  destruct (Bootstrap.gameIsEvaluated g); [done|].
  destruct (negb _); [done|]. destruct (negb _); [done|].
  destruct (pbg !! _) as [pos|]; [|done].
  revert s H. induction pos as [|[ply f] pos IHp]; intros s H; simpl; [done|].
  apply IHp. unfold Bootstrap.apply_ply.
  destruct (Z.eqb ply 0); [done|]. destruct (idx !! fen f) as [agg|]; [|done].
  destruct (negb _); [done|]. by apply P_boot.
Qed.

End BootstrapInvariant.

Lemma analyzeGames_P (P : Summary -> Prop) games o :
  (forall k s, P s -> P (bump_mbo k (bump_inacc s))) ->
  (forall k s, P s -> P (bump_mbo k (bump_mist s))) ->
  (forall k gid p cp s, P s ->
     P (push_blunder (mkEvent gid (Js.ceil_half p) p (Classifier.sideOf p) cp None false)
          (bump_bbo k (bump_mbo k (bump_blun s))))) ->
  (forall gid ply cp k opening s, P s ->
     P (push_mistake (mkEvent gid (Js.ceil_half ply) ply (Classifier.sideOf ply) cp (Some k) true)
          (match k with
           | Blunder => bump_bbo opening (bump_mbo opening (bump_blun s))
           | Mistake => bump_mbo opening (bump_mist s)
           | Inaccuracy => bump_mbo opening (bump_inacc s)
           end))) ->
  (forall s, P s -> P (finalize s)) ->
  P empty_summary -> P (analyzeGames games o).
Proof.
  intros H1 H2 H3 H4 H5 H0. unfold analyzeGames.
  pose proof (classify_P P H1 H2 H3 (Classifier.normalizedTarget (onlyForUsername o)) games
                (empty_summary, []) H0) as Hc.
  destruct (Classifier.classify _ games _) as [s labels]. simpl in Hc.
  apply H5. destruct (bootstrapOpening o) as [r|]; [|done].
  destruct (Js.truthy r); [|done]. by apply bootstrap_P.
Qed.

Lemma count_inv_analyzeGames games o : count_inv (analyzeGames games o).
Proof.
  apply analyzeGames_P; unfold count_inv; simpl.
  - intros k s. rewrite count_total_incr. lia.
  - intros k s. rewrite count_total_incr. lia.
  - intros k gid p cp s. rewrite !count_total_incr, length_app. simpl. lia.
  - intros gid ply cp [] opening s; simpl; unfold blunder_entries;
      rewrite ?count_total_incr, List.filter_app; simpl; rewrite ?length_app; simpl; lia.
  - intros s (H1 & H2 & H3). split; [done|]. split; [done|].
    unfold blunder_entries in *.
    rewrite (Permutation_length (sort_desc_perm _ _)).
    rewrite (filter_perm_length _ _ _ (sort_desc_perm _ _)). done.
  - rewrite count_total_empty. done.
Qed.


(** ** Where the [topBlunders] entries of [analyzeGames] come from *)

(** Closes the first three conjuncts of a four-part conjunction from the
    context and leaves the last one. *)
Ltac split3_done := split; [done|split; [done|split; [done|]]].

Lemma label_step_tb ts gid key st idx mv e :
  In e (topBlunders (fst (Classifier.label_step ts gid key st idx mv))) ->
  In e (topBlunders (fst st)) \/
  (e_gameId e = gid /\ event_shape e /\ Classifier.skipForTarget ts (e_ply e) = false /\
   Classifier.judgmentName mv <> None).
Proof.
  destruct st as [s ls]. unfold Classifier.label_step. simpl.
  destruct (Classifier.judgmentName mv) as [j|] eqn:Hj; [|intros H; by left].
  destruct (Classifier.skipForTarget ts _) eqn:Hs; [intros H; by left|].
  destruct (String.eqb _ "inaccuracy"); [simpl; intros H; by left|].
  destruct (String.eqb _ "mistake"); [simpl; intros H; by left|].
  destruct (String.eqb _ "blunder"); [|simpl; intros H; by left].
  simpl. intros H. apply in_app_or in H as [H|[<-|[]]]; [by left|].
  right. repeat split; done.
Qed.

Lemma eval_step_tb ts gid key st i prev curr e :
  In e (topBlunders (fst (Classifier.eval_step ts gid key st i prev curr))) ->
  In e (topBlunders (fst st)) \/
  (e_gameId e = gid /\ event_shape e /\ Classifier.skipForTarget ts (e_ply e) = false /\
   exists d, e_cp e = Some d /\ 250 <= d).
Proof.
  destruct st as [s ls]. unfold Classifier.eval_step. simpl.
  destruct (Classifier.skipForTarget ts _) eqn:Hs; [intros H; by left|].
  destruct (250 <=? _) eqn:H250.
  - simpl. intros H. apply in_app_or in H as [H|[<-|[]]]; [by left|].
    right. apply Z.leb_le in H250. repeat split; try done.
    eexists; split; [|exact H250]. simpl.
    destruct (0 <? _) eqn:H0; [done|]. apply Z.ltb_ge in H0. lia.
  - destruct (150 <=? _); [simpl; intros H; by left|].
    destruct (60 <=? _); simpl; intros H; by left.
Qed.

Lemma game_step_tb target st g e :
  In e (topBlunders (fst (Classifier.game_step target st g))) ->
  In e (topBlunders (fst st)) \/ blunder_from target g e.
Proof.
  unfold Classifier.game_step. cbv zeta.
  set (ts := Classifier.targetSide target g).
  assert (HL : forall moves idx st,
    In e (topBlunders (fst (Classifier.label_pass_from ts (Classifier.gameId g)
                                (Classifier.openingName g) idx moves st))) ->
    In e (topBlunders (fst st)) \/
    (e_gameId e = Classifier.gameId g /\ event_shape e /\
     Classifier.skipForTarget ts (e_ply e) = false /\ Classifier.hasJudgments moves = true)).
  { induction moves as [|mv r IH]; intros idx st' H; simpl in H; [by left|].
    unfold Classifier.hasJudgments in *.
    destruct (IH _ _ H) as [H'|(? & ? & ? & Hj)].
    - destruct (label_step_tb _ _ _ _ _ _ _ H') as [H''|(? & ? & ? & Hn)]; [by left|].
      right. split3_done. cbn [existsb].
      destruct (Classifier.judgmentName mv); [done|congruence].
    - right. split3_done. cbn [existsb]. rewrite Hj. apply orb_true_r. }
  assert (HE : forall rest i prev st,
    In e (topBlunders (fst (Classifier.eval_pass_from ts (Classifier.gameId g)
                                (Classifier.openingName g) i prev rest st))) ->
    In e (topBlunders (fst st)) \/
    (e_gameId e = Classifier.gameId g /\ event_shape e /\
     Classifier.skipForTarget ts (e_ply e) = false /\ exists d, e_cp e = Some d /\ 250 <= d)).
  { induction rest as [|c r IH]; intros i prev st' H; simpl in H; [by left|].
    destruct (IH _ _ _ H) as [H'|Hr]; [|by right].
    destruct (eval_step_tb _ _ _ _ _ _ _ _ H') as [H''|Hr]; [by left|by right]. }
  intros H.
  destruct (negb _ && negb _) eqn:Hb.
  - unfold Classifier.eval_pass in H.
    destruct (g_analysis g) as [|m0 rest] eqn:Hm.
    + destruct (HL _ _ _ H) as [H'|(? & ? & ? & Hj)]; [by left|].
      right. split3_done. left. by rewrite Hm.
    + destruct (HE _ _ _ _ H) as [H'|(? & ? & ? & Hd)].
      * destruct (HL _ _ _ H') as [H''|(? & ? & ? & Hj)]; [by left|].
        right. split3_done. left. by rewrite Hm.
      * right. split3_done. by right.
  - destruct (HL _ _ _ H) as [H'|(? & ? & ? & Hj)]; [by left|].
    right. split3_done. by left.
Qed.

Lemma classify_tb target games : forall st e,
  In e (topBlunders (fst (Classifier.classify target games st))) ->
  In e (topBlunders (fst st)) \/ exists g, In g games /\ blunder_from target g e.
Proof.
  unfold Classifier.classify.
  induction games as [|g r IH]; intros st e H; simpl in H; [by left|].
  destruct (IH _ _ H) as [H'|(g' & Hg' & Hf)].
  - destruct (game_step_tb _ _ _ _ H') as [H''|Hf]; [by left|].
    right. exists g. split; [by left|done].
  - right. exists g'. split; [by right|done].
Qed.

Lemma bootstrap_topBlunders games r labels s :
  topBlunders (Bootstrap.bootstrap games r labels s) = topBlunders s.
Proof.
  apply (bootstrap_P (fun s' => topBlunders s' = topBlunders s)); [|done].
  intros gid ply cp [] opening s' H; exact H.
Qed.

Lemma analyzeGames_tb games o e :
  In e (topBlunders (analyzeGames games o)) ->
  exists g, In g games /\ blunder_from (Classifier.normalizedTarget (onlyForUsername o)) g e.
Proof.
  unfold analyzeGames.
  pose proof (classify_tb (Classifier.normalizedTarget (onlyForUsername o)) games
                (empty_summary, []) e) as Hc.
  destruct (Classifier.classify _ games _) as [s labels]. simpl in Hc.
  intros H. unfold finalize in H. simpl in H. apply in_sort_desc in H.
  assert (Hs : In e (topBlunders s)).
  { destruct (bootstrapOpening o) as [r|]; [destruct (Js.truthy r)|]; try done.
    by rewrite bootstrap_topBlunders in H. }
  destruct (Hc Hs) as [[]|H']; done.
Qed.


(** X2.  Every blunder counted by [analyzeGames] is listed once: the blunders
    equal the [topBlunders] entries plus the bootstrapped [topMistakes]
    entries of kind blunder. *)
Theorem analyzeGames_blunders_listed games o :
  blunders (analyzeGames games o) =
  (length (topBlunders (analyzeGames games o)) +
   length (blunder_entries (topMistakes (analyzeGames games o))))%nat.
Proof. apply (count_inv_analyzeGames games o). Qed.

Lemma analyzeGames_tm_nil games o :
  (forall r, bootstrapOpening o = Some r -> Js.truthy r = false) ->
  topMistakes (analyzeGames games o) = [].
Proof.
  intros Hb. unfold analyzeGames.
  pose proof (classify_topMistakes (Classifier.normalizedTarget (onlyForUsername o)) games
                (empty_summary, [])) as Hc.
  destruct (Classifier.classify _ games _) as [s labels]. simpl in Hc.
  destruct (bootstrapOpening o) as [r|] eqn:Ho.
  - rewrite (Hb r eq_refl). simpl. by rewrite Hc.
  - simpl. by rewrite Hc.
Qed.

(** X3.  Without a (non-empty) [bootstrapOpening], [analyzeGames] leaves
    [topMistakes] empty and lists every blunder in [topBlunders]. *)
Theorem analyzeGames_no_bootstrap_lists games o :
  (forall r, bootstrapOpening o = Some r -> Js.truthy r = false) ->
  topMistakes (analyzeGames games o) = [] /\
  blunders (analyzeGames games o) = length (topBlunders (analyzeGames games o)).
Proof.
  intros Hb. pose proof (analyzeGames_tm_nil games o Hb) as Hm.
  split; [done|].
  destruct (count_inv_analyzeGames games o) as (_ & _ & H3). rewrite H3, Hm. simpl. lia.
Qed.

Lemma analyzeGames_no_bootstrap_lists_witness :
  (forall r, bootstrapOpening (mkOptions None (Some "")) = Some r -> Js.truthy r = false) /\
  topMistakes (analyzeGames [c6_italian; c6_ruy] (mkOptions None (Some ""))) = [] /\
  blunders (analyzeGames [c6_italian; c6_ruy] (mkOptions None (Some ""))) =
    length (topBlunders (analyzeGames [c6_italian; c6_ruy] (mkOptions None (Some "")))).
Proof.
  assert (H : forall r, bootstrapOpening (mkOptions None (Some "")) = Some r -> Js.truthy r = false)
    by (intros r [= <-]; reflexivity).
  split; [exact H|]. exact (analyzeGames_no_bootstrap_lists _ _ H).
Defined.

(** X4.  Every entry of [topBlunders] and [topMistakes] of [analyzeGames] has
    [moveNumber = ceil(ply / 2)] and [side] white exactly when its ply is
    odd. *)
Theorem analyzeGames_entry_shape games o :
  Forall event_shape (topBlunders (analyzeGames games o)) /\
  Forall event_shape (topMistakes (analyzeGames games o)).
Proof.
  apply (analyzeGames_P (fun s => Forall event_shape (topBlunders s) /\
                                  Forall event_shape (topMistakes s))); simpl.
  - done.
  - done.
  - intros k gid p cp s [Hb Hm]. split; [|done].
    apply Forall_app; split; [done|]. constructor; [|done]. by split.
  - intros gid ply cp [] opening s [Hb Hm]; (split; [done|]);
      (apply Forall_app; split; [done|]); (constructor; [|done]); by split.
  - intros s [Hb Hm]. split; eapply forall_perm; try apply Permutation_sym, sort_desc_perm; done.
  - split; constructor.
Qed.

(** X6.  When no game of the list carries judgment labels, every [topBlunders]
    entry of [analyzeGames] has a [centipawnLoss] of at least 250. *)
Theorem analyzeGames_unlabelled_blunder_floor games o e :
  (forall g, In g games -> Classifier.hasJudgments (g_analysis g) = false) ->
  In e (topBlunders (analyzeGames games o)) ->
  exists d, e_cp e = Some d /\ 250 <= d.
Proof.
  intros Hj H. destruct (analyzeGames_tb _ _ _ H) as (g & Hg & _ & _ & _ & [Hl|Hd]); [|done].
  by rewrite Hj in Hl.
Qed.

Lemma analyzeGames_unlabelled_blunder_floor_witness :
  (forall g, In g [c7_g1; c7_g2] -> Classifier.hasJudgments (g_analysis g) = false) /\
  In (mkEvent "g2" 1 2 Black (Some 300) None false)
     (topBlunders (analyzeGames [c7_g1; c7_g2] noOptions)) /\
  exists d, Some 300 = Some d /\ 250 <= d.
Proof.
  assert (Hj : forall g, In g [c7_g1; c7_g2] -> Classifier.hasJudgments (g_analysis g) = false)
    by (intros g [<-|[<-|[]]]; reflexivity).
  assert (H : In (mkEvent "g2" 1 2 Black (Some 300) None false)
                 (topBlunders (analyzeGames [c7_g1; c7_g2] noOptions)))
    by (vm_compute; left; reflexivity).
  split; [exact Hj|]. split; [exact H|].
  exact (analyzeGames_unlabelled_blunder_floor _ _ _ Hj H).
Defined.

(* ================================================================== *)
(** ** Invariants of [analyzeGamesWithPrecomputedData] *)

(** A property of summaries kept by every update of the first pass, for
    entries of games whose id satisfies [Gid]. *)
Section PrecomputedInvariant.
Variable Gid : string -> Prop.
Variable P : Summary -> Prop.
Hypothesis P_inacc : forall k gid p cp s, Gid gid -> P s ->
  P (push_mistake (Precomputed.entry gid p cp (Some Inaccuracy)) (bump_mbo k (bump_inacc s))).
Hypothesis P_mist : forall k gid p cp s, Gid gid -> P s ->
  P (push_mistake (Precomputed.entry gid p cp (Some Mistake)) (bump_mbo k (bump_mist s))).
Hypothesis P_blun : forall k gid p cp s, Gid gid -> P s ->
  P (push_mistake (Precomputed.entry gid p cp (Some Blunder))
       (push_blunder (Precomputed.entry gid p cp None) (bump_bbo k (bump_mbo k (bump_blun s))))).

Lemma pre_label_step_P ts gid key s idx mv :
  Gid gid -> P s -> P (Precomputed.label_step ts gid key s idx mv).
Proof.
  intros Hg H. unfold Precomputed.label_step. cbv zeta.
  destruct (Classifier.judgmentName mv); [|done].
  destruct (Classifier.skipForTarget _ _); [done|].
  repeat (destruct (String.eqb _ _); [auto|]). done.
Qed.

Lemma pre_eval_step_P ts gid key s i prev curr :
  Gid gid -> P s -> P (Precomputed.eval_step ts gid key s i prev curr).
Proof.
  intros Hg H. unfold Precomputed.eval_step. cbv zeta.
  destruct (Classifier.skipForTarget _ _); [done|].
  repeat (destruct (_ <=? _); [auto|]). done.
Qed.

Lemma firstPass_P games o :
  (forall g, In g games -> Gid (Classifier.gameId g)) ->
  P empty_summary -> P (Precomputed.firstPass games o).
Proof.
  unfold Precomputed.firstPass. generalize empty_summary.
  induction games as [|g gs IH]; intros s Hgs H; simpl; [done|].
  apply IH; [intros g' Hg'; apply Hgs; by right|].
  assert (Hg : Gid (Classifier.gameId g)) by (apply Hgs; by left).
  assert (HL : forall ts key moves idx s', P s' ->
            P (Precomputed.label_pass_from ts (Classifier.gameId g) key idx moves s')).
  { induction moves as [|mv r IHm]; intros idx s' H'; simpl; [done|].
    apply IHm, pre_label_step_P; done. }
  assert (HE : forall ts key rest i prev s', P s' ->
            P (Precomputed.eval_pass_from ts (Classifier.gameId g) key i prev rest s')).
  { induction rest as [|c r IHr]; intros i prev s' H'; simpl; [done|].
    apply IHr, pre_eval_step_P; done. }
  unfold Precomputed.game_step. cbv zeta.
  destruct (negb _ && negb _); [|by apply HL].
  unfold Precomputed.eval_pass. destruct (g_analysis g); [by apply HL|].
  apply HE, HL, H.
Qed.

End PrecomputedInvariant.



(** [lossForMover] is positive only for two cps without mate scores, and
    then it is the mover's drop. *)
Lemma lossForMover_pos prev curr p :
  0 < lossForMover prev curr p ->
  exists pw cw, Classifier.evalCp prev = Some pw /\ Classifier.evalCp curr = Some cw /\
    Classifier.evalMate prev = None /\ Classifier.evalMate curr = None /\
    lossForMover prev curr p = (if Js.odd_ply p then pw - cw else cw - pw).
Proof.
  unfold lossForMover.
  destruct (Classifier.evalCp prev) as [pw|], (Classifier.evalCp curr) as [cw|]; try lia.
  destruct (Classifier.evalMate prev), (Classifier.evalMate curr); try lia.
  intros H. exists pw, cw. split; [done|]. split; [done|]. split; [done|]. split; [done|].
  destruct (Js.odd_ply p); lia.
Qed.

Lemma entry_gameId gid p cp k : e_gameId (Precomputed.entry gid p cp k) = gid.
Proof. reflexivity. Qed.
Lemma entry_ply gid p cp k : e_ply (Precomputed.entry gid p cp k) = p.
Proof. reflexivity. Qed.
Lemma entry_cp gid p cp k : e_cp (Precomputed.entry gid p cp k) = cp.
Proof. reflexivity. Qed.

Lemma pre_eval_step_tm ts gid key s i prev curr e :
  In e (topMistakes (Precomputed.eval_step ts gid key s i prev curr)) ->
  In e (topMistakes s) \/
  (e_gameId e = gid /\ e_ply e = Classifier.plyValue curr i /\ mover_loss e prev curr).
Proof.
  unfold Precomputed.eval_step. cbv zeta.
  destruct (Classifier.skipForTarget _ _); [by left|].
  set (p := Classifier.plyValue curr i).
  destruct (Z.lt_ge_cases (lossForMover prev curr p) 60) as [Hlt|Hge].
  { rewrite (proj2 (Z.leb_gt 250 _)), (proj2 (Z.leb_gt 150 _)), (proj2 (Z.leb_gt 60 _)) by lia.
    by left. }
  destruct (lossForMover_pos prev curr p) as (pw & cw & Hp & Hc & Hmp & Hmc & Hl); [lia|].
  assert (Hfin : forall k, e = Precomputed.entry gid p (if 0 <? lossForMover prev curr p
                                 then Some (lossForMover prev curr p) else None) k ->
                 60 <= lossForMover prev curr p ->
                 e_gameId e = gid /\ e_ply e = p /\ mover_loss e prev curr).
  { intros k -> H60. unfold mover_loss. rewrite entry_gameId, entry_ply, entry_cp. split; [done|]. split; [done|].
    exists pw, cw. split; [done|]. split; [done|]. split; [done|]. split; [done|].
    rewrite <- Hl. split; [|done].
    destruct (0 <? lossForMover prev curr p) eqn:E; [done|]. apply Z.ltb_ge in E. lia. }
  destruct (250 <=? lossForMover prev curr p) eqn:E1.
  { apply Z.leb_le in E1. simpl. intros H. apply in_app_or in H as [H|[H|[]]]; [by left|].
    right. eapply Hfin; [symmetry; exact H|lia]. }
  destruct (150 <=? lossForMover prev curr p) eqn:E2.
  { apply Z.leb_le in E2. simpl. intros H. apply in_app_or in H as [H|[H|[]]]; [by left|].
    right. eapply Hfin; [symmetry; exact H|lia]. }
  destruct (60 <=? lossForMover prev curr p) eqn:E3; [|by left].
  apply Z.leb_le in E3. simpl. intros H. apply in_app_or in H as [H|[H|[]]]; [by left|].
  right. eapply Hfin; [symmetry; exact H|lia].
Qed.

Lemma pre_eval_pass_tm ts gid key e : forall rest i prev s,
  In e (topMistakes (Precomputed.eval_pass_from ts gid key i prev rest s)) ->
  In e (topMistakes s) \/
  exists j pr cu, (i <= j)%nat /\ nth_error (prev :: rest) (j - i) = Some pr /\
    nth_error (prev :: rest) (S (j - i)) = Some cu /\
    e_gameId e = gid /\ e_ply e = Classifier.plyValue cu j /\ mover_loss e pr cu.
Proof.
  induction rest as [|c r IH]; intros i prev s H; simpl in H; [by left|].
  destruct (IH _ _ _ H) as [H1|(j & pr & cu & Hj & H2 & H3 & H4)].
  - destruct (pre_eval_step_tm _ _ _ _ _ _ _ _ H1) as [H0|(Ha & Hb & Hc)]; [by left|].
    right. exists i, prev, c. rewrite Nat.sub_diag. simpl.
    split; [lia|]. tauto.
  - right. exists j, pr, cu. split; [lia|].
    replace (j - i)%nat with (S (j - S i)) by lia. simpl. tauto.
Qed.

Lemma pre_label_pass_unlabelled ts gid key : forall moves idx s,
  Classifier.hasJudgments moves = false ->
  Precomputed.label_pass_from ts gid key idx moves s = s.
Proof.
  induction moves as [|mv r IH]; intros idx s H; simpl; [done|].
  simpl in H. apply orb_false_iff in H as [H1 H2].
  unfold Precomputed.label_step. destruct (Classifier.judgmentName mv); [done|].
  by apply IH.
Qed.

Lemma pre_firstPass_tm target games : forall s e,
  (forall g, In g games -> Classifier.hasJudgments (g_analysis g) = false) ->
  In e (topMistakes (fold_left (Precomputed.game_step target) games s)) ->
  In e (topMistakes s) \/
  exists g i prev curr, In g games /\ Classifier.gameId g = e_gameId e /\ (1 <= i)%nat /\
    nth_error (g_analysis g) (i - 1) = Some prev /\ nth_error (g_analysis g) i = Some curr /\
    e_ply e = Classifier.plyValue curr i /\ mover_loss e prev curr.
Proof.
  induction games as [|g gs IH]; intros s e Hj H; simpl in H; [by left|].
  destruct (IH _ _ (fun g' Hg' => Hj g' (or_intror Hg')) H) as [H1|(g' & i & pr & cu & Hg' & Hrest)];
    [|right; exists g', i, pr, cu; split; [by right|exact Hrest]].
  unfold Precomputed.game_step in H1. cbv zeta in H1.
  rewrite pre_label_pass_unlabelled in H1 by (apply Hj; by left).
  destruct (negb _ && negb _); [|by left].
  unfold Precomputed.eval_pass in H1. destruct (g_analysis g) as [|m0 rest] eqn:Em; [by left|].
  destruct (pre_eval_pass_tm _ _ _ _ _ _ _ _ H1) as [H2|(j & pr & cu & Hij & H3 & H4 & H5 & H6 & H7)];
    [by left|].
  right. exists g, j, pr, cu. split; [by left|]. split; [done|]. split; [done|].
  rewrite Em. replace (S (j - 1)) with j in H4 by lia. tauto.
Qed.

(* ------------------------------------------------------------------ *)
(** ** Facts about [computeRecurringPatterns] *)

Lemma gameById_lookup games id g :
  Bootstrap.gameById games !! id = Some g ->
  In g games /\ Classifier.gameId g = id /\ Js.truthy id = true.
Proof.
  unfold Bootstrap.gameById.
  assert (Hgen : forall m : gmap string Game, fold_left (fun m g => if Js.truthy (Classifier.gameId g)
                                                 then <[Classifier.gameId g := g]> m else m) games m !! id = Some g ->
            m !! id = Some g \/ (In g games /\ Classifier.gameId g = id /\ Js.truthy id = true)).
  { induction games as [|g0 gs IH]; intros m H; simpl in H; [by left|].
    destruct (IH _ H) as [H1|(Ha & Hb & Hc)]; [|right; split; [by right|done]].
    destruct (Js.truthy (Classifier.gameId g0)) eqn:Et; [|by left].
    destruct (decide (Classifier.gameId g0 = id)) as [<-|Hne].
    - rewrite lookup_insert_eq in H1. injection H1 as <-. right. split; [by left|done].
    - rewrite lookup_insert_ne in H1 by done. by left. }
  intros H. destruct (Hgen _ H) as [H1|H1]; [done|exact H1].
Qed.

Lemma gameById_found games id :
  Js.truthy id = true -> (exists g, In g games /\ Classifier.gameId g = id) ->
  is_Some (Bootstrap.gameById games !! id).
Proof.
  unfold Bootstrap.gameById. intros Ht.
  assert (Hgen : forall m : gmap string Game, (is_Some (m !! id) \/ exists g, In g games /\ Classifier.gameId g = id) ->
            is_Some (fold_left (fun m g => if Js.truthy (Classifier.gameId g)
                                           then <[Classifier.gameId g := g]> m else m) games m !! id)).
  { induction games as [|g0 gs IH]; intros m H; simpl.
    - destruct H as [H|(g & [] & _)]; done.
    - apply IH. destruct H as [H|(g & [<-|Hg] & Hid)].
      + left. destruct (Js.truthy (Classifier.gameId g0)); [|done].
        destruct (decide (Classifier.gameId g0 = id)) as [<-|Hne];
          [by rewrite lookup_insert_eq|by rewrite lookup_insert_ne].
      + left. subst id. rewrite Ht. by rewrite lookup_insert_eq.
      + right. by exists g. }
  intros H. apply Hgen. by right.
Qed.

Lemma count_bump_sum n m :
  list_sum (map snd (Orchestrator.count_bump n m)) = S (list_sum (map snd m)).
Proof.
  induction m as [|[k c] r IH]; simpl; [lia|].
  destruct (String.eqb k n); simpl; lia.
Qed.

Lemma count_bump_keys n m k :
  In k (map fst (Orchestrator.count_bump n m)) <-> k = n \/ In k (map fst m).
Proof.
  induction m as [|[k' c] r IH]; simpl; [intuition congruence|].
  destruct (String.eqb k' n) eqn:E; simpl.
  - apply String.eqb_eq in E. subst. intuition congruence.
  - rewrite IH. intuition congruence.
Qed.

Lemma count_bump_nodup n m :
  NoDup (map fst m) -> NoDup (map fst (Orchestrator.count_bump n m)).
Proof.
  induction m as [|[k c] r IH]; simpl; intros H.
  - apply NoDup_singleton.
  - apply NoDup_cons in H as [Hk Hr].
    destruct (String.eqb k n) eqn:E; simpl; apply NoDup_cons; split; try done.
    + rewrite list_elem_of_In, count_bump_keys, <- list_elem_of_In.
      apply String.eqb_neq in E. intros [->|Hin]; [done|]. by apply Hk.
    + by apply IH.
Qed.

Lemma perm_list_sum (l l' : list nat) : l ≡ₚ l' -> list_sum l = list_sum l'.
Proof. induction 1; simpl; lia. Qed.

Lemma pattern_fold_sum gm vm tb : forall acc,
  list_sum (map snd (fst (fold_left (Precomputed.pattern_step gm vm) tb acc))) =
  (list_sum (map snd (fst acc)) +
   length (List.filter (fun b => if gm !! e_gameId b then true else false) tb))%nat.
Proof.
  induction tb as [|b r IH]; intros [counts samples]; simpl; [lia|].
  rewrite IH. unfold Precomputed.pattern_step.
  destruct (gm !! e_gameId b); simpl; [|done].
  rewrite count_bump_sum. lia.
Qed.

Lemma pattern_fold_nodup gm vm tb : forall acc,
  NoDup (map fst (fst acc)) ->
  NoDup (map fst (fst (fold_left (Precomputed.pattern_step gm vm) tb acc))).
Proof.
  induction tb as [|b r IH]; intros [counts samples] H; simpl; [done|].
  apply IH. unfold Precomputed.pattern_step.
  destruct (gm !! e_gameId b); simpl; [|done]. by apply count_bump_nodup.
Qed.

(** Every sample stored under a key is the sample of that key, and every
    counted key has a sample. *)
Lemma pattern_fold_samples gm vm tb : forall acc,
  (forall k smp, snd acc !! k = Some smp ->
     k = String.append (Precomputed.sm_opening smp) (String.append "||" (Precomputed.sm_move smp))) ->
  (forall k, In k (map fst (fst acc)) -> is_Some (snd acc !! k)) ->
  let acc' := fold_left (Precomputed.pattern_step gm vm) tb acc in
  (forall k smp, snd acc' !! k = Some smp ->
     k = String.append (Precomputed.sm_opening smp) (String.append "||" (Precomputed.sm_move smp))) /\
  (forall k, In k (map fst (fst acc')) -> is_Some (snd acc' !! k)).
Proof.
  induction tb as [|b r IH]; intros [counts samples] H1 H2; simpl; [done|].
  apply IH; unfold Precomputed.pattern_step; destruct (gm !! e_gameId b) as [game|]; simpl; try done.
  - destruct (samples !! _) eqn:E; [done|].
    intros k smp. destruct (decide (k = String.append (Classifier.openingName game)
       (String.append "||" (default Precomputed.em_dash (nth_error (default [] (vm !! Classifier.gameId game))
          (Z.to_nat (Z.max 0 (Z.min (Z.of_nat (length (default [] (vm !! Classifier.gameId game))) - 1)
             (e_moveNumber b * 2 - 2))))))))) as [->|Hne].
    + rewrite lookup_insert_eq. intros [= <-]. done.
    + rewrite lookup_insert_ne by done. apply H1.
  - intros k Hk. apply count_bump_keys in Hk as [->|Hk].
    + destruct (samples !! _) eqn:E; [by rewrite E|]. by rewrite lookup_insert_eq.
    + destruct (samples !! _) eqn:E; [by apply H2|].
      destruct (decide (k = String.append (Classifier.openingName game)
       (String.append "||" (default Precomputed.em_dash (nth_error (default [] (vm !! Classifier.gameId game))
          (Z.to_nat (Z.max 0 (Z.min (Z.of_nat (length (default [] (vm !! Classifier.gameId game))) - 1)
             (e_moveNumber b * 2 - 2))))))))) as [->|Hne];
        [by rewrite lookup_insert_eq|rewrite lookup_insert_ne by done; by apply H2].
Qed.

Lemma string_append_nil_l (b : string) : String.append "" b = b.
Proof. reflexivity. Qed.

Lemma string_append_cons x (a b : string) :
  String.append (String x a) b = String x (String.append a b).
Proof. reflexivity. Qed.

Lemma string_append_assoc (a b c : string) :
  String.append (String.append a b) c = String.append a (String.append b c).
Proof.
  induction a as [|x a IH]; [done|]. by rewrite !string_append_cons, IH.
Qed.

Lemma string_append_empty_r (a : string) : String.append a "" = a.
Proof. induction a as [|x a IH]; [done|]. by rewrite string_append_cons, IH. Qed.

Lemma split_bars_nobar m : forall cur,
  no_bar m = true -> Precomputed.split_bars m cur = [String.append cur m].
Proof.
  induction m as [|c m IH]; intros cur H; simpl.
  - by rewrite string_append_empty_r.
  - unfold no_bar in H. simpl in H. apply negb_true_iff, orb_false_iff in H as [Hc Hm].
    rewrite Hc, IH by (unfold no_bar; by rewrite Hm).
    by rewrite string_append_assoc.
Qed.

Lemma split_bars_sep o m : forall cur,
  no_bar o = true ->
  Precomputed.split_bars (String.append o (String.append "||" m)) cur =
  String.append cur o :: Precomputed.split_bars m "".
Proof.
  induction o as [|c o IH]; intros cur H.
  - rewrite !string_append_nil_l. simpl. by rewrite string_append_empty_r.
  - rewrite string_append_cons. simpl. unfold no_bar in H. simpl in H. apply negb_true_iff, orb_false_iff in H as [Hc Ho].
    rewrite Hc, IH by (unfold no_bar; by rewrite Ho).
    by rewrite string_append_assoc.
Qed.

Lemma computeRecurringPatterns_sample games tb vm p :
  In p (Precomputed.computeRecurringPatterns games tb vm) ->
  exists smp, Precomputed.pt_sample p = Some smp /\
    Precomputed.pt_key p =
      String.append (Precomputed.sm_opening smp) (String.append "||" (Precomputed.sm_move smp)) /\
    Precomputed.pt_opening p = nth 0 (Precomputed.split_bars (Precomputed.pt_key p) "") "" /\
    Precomputed.pt_move p = nth 1 (Precomputed.split_bars (Precomputed.pt_key p) "") "".
Proof.
  unfold Precomputed.computeRecurringPatterns.
  pose proof (pattern_fold_samples (Bootstrap.gameById games) vm tb ([], ∅)) as Hs.
  destruct (fold_left _ tb _) as [counts samples]. simpl in Hs.
  destruct Hs as [H1 H2]; [intros k smp; by rewrite lookup_empty|done|].
  intros Hp. apply in_sort_desc, in_map_iff in Hp as ([key count] & <- & Hin).
  simpl. destruct (H2 key) as [smp Hsmp]; [apply in_map_iff; by exists (key, count)|].
  exists smp. rewrite Hsmp. split; [done|]. split; [by apply H1|]. done.
Qed.

Lemma firstPass_tb_ids games o :
  Forall (fun e => exists g, In g games /\ Classifier.gameId g = e_gameId e)
    (topBlunders (Precomputed.firstPass games o)).
Proof.
  apply (firstPass_P (fun id => exists g, In g games /\ Classifier.gameId g = id)); simpl.
  - intros k gid p cp s _ H. exact H.
  - intros k gid p cp s _ H. exact H.
  - intros k gid p cp s Hg H. apply Forall_app. split; [done|].
    constructor; [|constructor]. by rewrite entry_gameId.
  - intros g Hg. by exists g.
  - constructor.
Qed.

Lemma pattern_fold_keys_mono gm vm tb : forall acc k,
  In k (map fst (fst acc)) ->
  In k (map fst (fst (fold_left (Precomputed.pattern_step gm vm) tb acc))).
Proof.
  induction tb as [|b r IH]; intros [counts samples] k H; simpl; [done|].
  apply IH. unfold Precomputed.pattern_step.
  destruct (gm !! e_gameId b); simpl; [|done]. apply count_bump_keys. by right.
Qed.

Lemma pattern_fold_keys gm vm tb b game : forall acc,
  In b tb -> gm !! e_gameId b = Some game ->
  In (String.append (Classifier.openingName game) (String.append "||"
        (default Precomputed.em_dash
           (nth_error (default [] (vm !! Classifier.gameId game))
              (Z.to_nat (Z.max 0 (Z.min (Z.of_nat (length (default [] (vm !! Classifier.gameId game))) - 1)
                                        (e_moveNumber b * 2 - 2))))))))
     (map fst (fst (fold_left (Precomputed.pattern_step gm vm) tb acc))).
Proof.
  induction tb as [|b' r IH]; intros [counts samples] Hb Hg; [destruct Hb|].
  destruct Hb as [<-|Hb]; simpl; [|by apply IH].
  apply pattern_fold_keys_mono. unfold Precomputed.pattern_step. rewrite Hg. simpl.
  apply count_bump_keys. by left.
Qed.

(** The patterns of [computeRecurringPatterns] are the counted keys, each
    with its count. *)
Lemma computeRecurringPatterns_in games tb vm key :
  In key (map fst (fst (fold_left (Precomputed.pattern_step (Bootstrap.gameById games) vm) tb ([], ∅)))) ->
  exists p, In p (Precomputed.computeRecurringPatterns games tb vm) /\ Precomputed.pt_key p = key.
Proof.
  unfold Precomputed.computeRecurringPatterns.
  destruct (fold_left _ tb _) as [counts samples]. simpl.
  intros Hk. apply in_map_iff in Hk as ([k c] & <- & Hin).
  eexists. split; [apply in_sort_desc, in_map_iff; exists (k, c); split; [reflexivity|exact Hin]|].
  reflexivity.
Qed.

(* ================================================================== *)
(** ** Theorems on [analyzeGamesWithPrecomputedData] *)


(** X8.  When no game carries a judgment label, every [topMistakes]
    entry of [analyzeGamesWithPrecomputedData] comes from two consecutive
    analysis entries of its game, both with a cp and no mate score, and
    records the drop of the mover's evaluation (White on odd plies), at
    least 60: a move that improves the mover's evaluation, or a pair with
    a mate score, gives no entry. *)
Theorem precomputed_mover_loss verbose games o e :
  (forall g, In g games -> Classifier.hasJudgments (g_analysis g) = false) ->
  In e (topMistakes (Precomputed.r_summary (Precomputed.analyzeGamesWithPrecomputedData verbose games o))) ->
  exists g i prev curr, In g games /\ Classifier.gameId g = e_gameId e /\ (1 <= i)%nat /\
    nth_error (g_analysis g) (i - 1) = Some prev /\ nth_error (g_analysis g) i = Some curr /\
    e_ply e = Classifier.plyValue curr i /\ mover_loss e prev curr.
Proof.
  intros Hj H. simpl in H. apply in_sort_desc in H.
  destruct (pre_firstPass_tm _ _ _ _ Hj H) as [[]|H1]. exact H1.
Qed.

Lemma precomputed_mover_loss_witness :
  (forall g, In g [c6_italian] -> Classifier.hasJudgments (g_analysis g) = false) /\
  In (mkEvent "A" 1 2 Black (Some 300) (Some Blunder) false)
    (topMistakes (Precomputed.r_summary
       (Precomputed.analyzeGamesWithPrecomputedData (fun _ => []) [c6_italian] noOptions))) /\
  exists g i prev curr, In g [c6_italian] /\ Classifier.gameId g = "A" /\ (1 <= i)%nat /\
    nth_error (g_analysis g) (i - 1) = Some prev /\ nth_error (g_analysis g) i = Some curr /\
    2 = Classifier.plyValue curr i /\ mover_loss (mkEvent "A" 1 2 Black (Some 300) (Some Blunder) false) prev curr.
Proof.
  assert (Hj : forall g, In g [c6_italian] -> Classifier.hasJudgments (g_analysis g) = false)
    by (intros g [<-|[]]; reflexivity).
  assert (Hin : In (mkEvent "A" 1 2 Black (Some 300) (Some Blunder) false)
    (topMistakes (Precomputed.r_summary
       (Precomputed.analyzeGamesWithPrecomputedData (fun _ => []) [c6_italian] noOptions))))
    by (vm_compute; left; reflexivity).
  split; [exact Hj|]. split; [exact Hin|].
  exact (precomputed_mover_loss _ _ _ _ Hj Hin).
Defined.

(** X9.  The counts of the recurring patterns add up to the number of
    [topBlunders] entries whose game id is non-empty; no two patterns
    share a key; and the patterns are sorted by count, descending. *)
Theorem precomputed_pattern_counts verbose games o :
  let r := Precomputed.analyzeGamesWithPrecomputedData verbose games o in
  list_sum (map Precomputed.pt_count (Precomputed.r_patterns r)) =
    length (List.filter (fun b => Js.truthy (e_gameId b)) (topBlunders (Precomputed.r_summary r))) /\
  NoDup (map Precomputed.pt_key (Precomputed.r_patterns r)) /\
  sorted_desc (fun p => Z.of_nat (Precomputed.pt_count p)) (Precomputed.r_patterns r).
Proof.
  intros r. unfold r, Precomputed.analyzeGamesWithPrecomputedData. simpl.
  pose proof (firstPass_tb_ids games o) as Hids.
  set (tb := topBlunders (Precomputed.firstPass games o)) in *.
  set (vm := Precomputed.verboseMovesByGame verbose games).
  rewrite (filter_perm_length _ _ _ (sort_desc_perm _ _)).
  assert (Hf : List.filter (fun b => Js.truthy (e_gameId b)) tb =
               List.filter (fun b => if Bootstrap.gameById games !! e_gameId b then true else false) tb).
  { apply filter_ext_in. intros b Hb.
    eapply List.Forall_forall in Hids as (g & Hg & Hid); [|exact Hb].
    destruct (Js.truthy (e_gameId b)) eqn:Et.
    - destruct (gameById_found games (e_gameId b) Et) as [g' ->]; [by exists g|done].
    - destruct (Bootstrap.gameById games !! e_gameId b) as [g'|] eqn:E; [|done].
      apply gameById_lookup in E as (_ & _ & Ht). congruence. }
  rewrite Hf.
  pose proof (pattern_fold_sum (Bootstrap.gameById games) vm tb ([], ∅)) as Hsum.
  pose proof (pattern_fold_nodup (Bootstrap.gameById games) vm tb ([], ∅) (NoDup_nil_2)) as Hnd.
  unfold Precomputed.computeRecurringPatterns.
  destruct (fold_left _ tb _) as [counts samples]. simpl in Hsum, Hnd.
  split; [|split; [|apply sort_desc_sorted]].
  - rewrite (perm_list_sum _ _ (Permutation_map _ (sort_desc_perm _ _))).
    rewrite map_map, <- Hsum. f_equal. apply map_ext. by intros [k c].
  - rewrite (Permutation_map _ (sort_desc_perm _ _)).
    rewrite map_map. erewrite map_ext; [exact Hnd|]. by intros [k c].
Qed.

(** X10.  Every recurring pattern carries the sample of its key, and
    the key is the sample's opening, then ["||"], then its move.  When
    neither contains ['|'], [key.split('||')] gives the pattern back its
    opening and move. *)
Theorem precomputed_pattern_split verbose games o p :
  In p (Precomputed.r_patterns (Precomputed.analyzeGamesWithPrecomputedData verbose games o)) ->
  exists smp, Precomputed.pt_sample p = Some smp /\
    Precomputed.pt_key p =
      String.append (Precomputed.sm_opening smp) (String.append "||" (Precomputed.sm_move smp)) /\
    (no_bar (Precomputed.sm_opening smp) = true -> no_bar (Precomputed.sm_move smp) = true ->
     Precomputed.pt_opening p = Precomputed.sm_opening smp /\
     Precomputed.pt_move p = Precomputed.sm_move smp).
Proof.
  simpl. intros Hp.
  destruct (computeRecurringPatterns_sample _ _ _ _ Hp) as (smp & Hs & Hk & Ho & Hm).
  exists smp. split; [done|]. split; [done|]. intros H1 H2.
  rewrite Ho, Hm, Hk, split_bars_sep, split_bars_nobar by done. done.
Qed.

Lemma precomputed_pattern_split_witness :
  In (Precomputed.mkPattern "Italian||e4" "Italian" "e4" 1 (Some (Precomputed.mkSample "A" 1 "Italian" "e4")))
    (Precomputed.r_patterns
       (Precomputed.analyzeGamesWithPrecomputedData (fun _ => ["e4"; "e5"]) [c6_italian] noOptions)) /\
  exists smp, Some (Precomputed.mkSample "A" 1 "Italian" "e4") = Some smp /\
    "Italian||e4" = String.append (Precomputed.sm_opening smp) (String.append "||" (Precomputed.sm_move smp)) /\
    (no_bar (Precomputed.sm_opening smp) = true -> no_bar (Precomputed.sm_move smp) = true ->
     "Italian" = Precomputed.sm_opening smp /\ "e4" = Precomputed.sm_move smp).
Proof.
  assert (Hin : In (Precomputed.mkPattern "Italian||e4" "Italian" "e4" 1
                      (Some (Precomputed.mkSample "A" 1 "Italian" "e4")))
    (Precomputed.r_patterns
       (Precomputed.analyzeGamesWithPrecomputedData (fun _ => ["e4"; "e5"]) [c6_italian] noOptions)))
    by (vm_compute; left; reflexivity).
  split; [exact Hin|].
  exact (precomputed_pattern_split _ _ _ _ Hin).
Defined.

(** X11.  For a [topBlunders] entry whose game is known and whose move
    number [n] has a White move in the game's SAN list [v], the key
    counted for it is the opening, then ["||"], then [v[2n - 2]]: the
    White move of that move number, also when the blunder is Black's. *)
Theorem pattern_key_white_san games tb vm b g v :
  In b tb -> Bootstrap.gameById games !! e_gameId b = Some g ->
  vm !! Classifier.gameId g = Some v ->
  1 <= e_moveNumber b -> 2 * e_moveNumber b - 1 <= Z.of_nat (length v) ->
  exists p san, In p (Precomputed.computeRecurringPatterns games tb vm) /\
    nth_error v (Z.to_nat (2 * e_moveNumber b - 2)) = Some san /\
    Precomputed.pt_key p = String.append (Classifier.openingName g) (String.append "||" san).
Proof.
  intros Hb Hg Hv H1 H2.
  destruct (nth_error v (Z.to_nat (2 * e_moveNumber b - 2))) as [san|] eqn:Es;
    [|apply nth_error_None in Es; lia].
  destruct (computeRecurringPatterns_in games tb vm _
              (pattern_fold_keys _ vm tb b g ([], ∅) Hb Hg)) as (p & Hp & Hk).
  exists p, san. split; [done|]. split; [done|]. rewrite Hk, Hv. simpl.
  replace (Z.max 0 (Z.min (Z.of_nat (length v) - 1) (e_moveNumber b * 2 - 2)))
    with (2 * e_moveNumber b - 2) by lia.
  by rewrite Es.
Qed.

Lemma pattern_key_white_san_witness :
  let gm := Bootstrap.gameById [c6_italian] in
  let b := mkEvent "A" 1 2 Black (Some 300) None false in
  In b [b] /\ gm !! "A" = Some c6_italian /\
  (<["A" := ["e4"; "e5"]]> ∅ : gmap string (list string)) !! Classifier.gameId c6_italian = Some ["e4"; "e5"] /\
  exists p san, In p (Precomputed.computeRecurringPatterns [c6_italian] [b] (<["A" := ["e4"; "e5"]]> ∅)) /\
    nth_error ["e4"; "e5"] (Z.to_nat (2 * 1 - 2)) = Some san /\
    Precomputed.pt_key p = String.append "Italian" (String.append "||" san).
Proof.
  intros gm b.
  assert (Hb : In b [b]) by (left; reflexivity).
  assert (Hg : Bootstrap.gameById [c6_italian] !! e_gameId b = Some c6_italian) by reflexivity.
  assert (Hv : (<["A" := ["e4"; "e5"]]> ∅ : gmap string (list string)) !! Classifier.gameId c6_italian
               = Some ["e4"; "e5"]) by reflexivity.
  split; [exact Hb|]. split; [exact Hg|]. split; [exact Hv|].
  exact (pattern_key_white_san [c6_italian] [b] _ b c6_italian ["e4"; "e5"] Hb Hg Hv
           ltac:(simpl; lia) ltac:(simpl; lia)).
Defined.

(* ================================================================== *)
(** ** [deriveUsernameFromGames] *)

Lemma nodup_snoc (acc : list string) l :
  NoDup acc -> existsb (String.eqb l) acc = false -> NoDup (app acc [l]).
Proof.
  intros H He. apply NoDup_app. split; [done|]. split; [|apply NoDup_singleton].
  intros x Hx Hx'. apply list_elem_of_singleton in Hx'. subst x.
  apply list_elem_of_In in Hx.
  assert (existsb (String.eqb l) acc = true) as Ht
    by (apply existsb_exists; exists l; split; [done|apply String.eqb_refl]).
  congruence.
Qed.

Lemma gameNameSet_nodup g : NoDup (Orchestrator.gameNameSet g).
Proof.
  unfold Orchestrator.gameNameSet. cbv zeta.
  repeat case_match; simplify_eq;
    repeat (first [apply NoDup_nil_2 | apply nodup_snoc | apply NoDup_singleton | done]).
Qed.

Lemma counts_get_bump k n m :
  counts_get k (Orchestrator.count_bump n m) =
  if String.eqb n k then S (counts_get k m) else counts_get k m.
Proof.
  induction m as [|[k' c] r IH]; simpl.
  - destruct (String.eqb n k); done.
  - destruct (String.eqb_spec k' n) as [->|Hne]; simpl.
    + destruct (String.eqb n k); done.
    + rewrite IH. destruct (String.eqb_spec k' k) as [->|Hk]; [|done].
      apply String.eqb_neq in Hne. rewrite String.eqb_sym in Hne. by rewrite Hne.
Qed.

Lemma counts_get_in k c m :
  NoDup (map fst m) -> In (k, c) m -> counts_get k m = c.
Proof.
  induction m as [|[k' c'] r IH]; simpl; [done|].
  intros Hnd [[= -> ->]|Hin]; [by rewrite String.eqb_refl|].
  apply NoDup_cons in Hnd as [Hk Hr].
  destruct (String.eqb_spec k' k) as [->|Hne]; [|by apply IH].
  exfalso. apply Hk, list_elem_of_In, in_map_iff. by exists (k, c).
Qed.

Lemma counts_get_pos k m :
  (0 < counts_get k m)%nat -> In (k, counts_get k m) m.
Proof.
  induction m as [|[k' c'] r IH]; simpl; [lia|].
  destruct (String.eqb_spec k' k) as [->|Hne]; [by left|]. intros H. right. by apply IH.
Qed.

Lemma counts_get_names k : forall names m,
  NoDup names ->
  counts_get k (fold_left (fun m n => Orchestrator.count_bump n m) names m) =
  (counts_get k m + if existsb (String.eqb k) names then 1 else 0)%nat.
Proof.
  induction names as [|n ns IH]; intros m Hnd; simpl; [lia|].
  apply NoDup_cons in Hnd as [Hn Hns].
  rewrite IH, counts_get_bump by done.
  rewrite (String.eqb_sym k n).
  destruct (String.eqb_spec n k) as [->|Hne]; simpl; [|lia].
  destruct (existsb (String.eqb k) ns) eqn:E; [|lia].
  apply existsb_exists in E as (x & Hx & Hkx). apply String.eqb_eq in Hkx. subst x.
  exfalso. apply Hn. by apply list_elem_of_In.
Qed.

Lemma usernameCounts_get k all :
  counts_get k (Orchestrator.usernameCounts all) = games_with_name k all.
Proof.
  unfold Orchestrator.usernameCounts, games_with_name.
  enough (H : forall m, counts_get k (fold_left (fun m g =>
              fold_left (fun m n => Orchestrator.count_bump n m) (Orchestrator.gameNameSet g) m) all m) =
            (counts_get k m + length (List.filter (fun g => existsb (String.eqb k)
                                                  (Orchestrator.gameNameSet g)) all))%nat)
    by (rewrite H; done).
  induction all as [|g gs IH]; intros m; simpl; [lia|].
  rewrite IH, counts_get_names by apply gameNameSet_nodup.
  destruct (existsb _ _); simpl; lia.
Qed.

Lemma usernameCounts_nodup all : NoDup (map fst (Orchestrator.usernameCounts all)).
Proof.
  unfold Orchestrator.usernameCounts. generalize (NoDup_nil_2 (A:=string)).
  change (@nil string) with (map fst (@nil (string * nat))). generalize (@nil (string * nat)).
  induction all as [|g gs IH]; intros m Hm; simpl; [done|].
  apply IH. generalize (Orchestrator.gameNameSet g). intros names. revert m Hm.
  induction names as [|n ns IHn]; intros m Hm; simpl; [done|].
  apply IHn. by apply count_bump_nodup.
Qed.

Lemma usernameCounts_keys k all :
  In k (map fst (Orchestrator.usernameCounts all)) ->
  exists g, In g all /\ In k (Orchestrator.gameNameSet g).
Proof.
  unfold Orchestrator.usernameCounts.
  assert (Hn : forall names m, In k (map fst (fold_left (fun m n => Orchestrator.count_bump n m) names m)) ->
                 In k (map fst m) \/ In k names).
  { induction names as [|n ns IH]; intros m H; simpl in H; [by left|].
    destruct (IH _ H) as [H1|H1]; [|right; by right].
    apply count_bump_keys in H1 as [->|H1]; [right; by left|by left]. }
  assert (Hg : forall m, In k (map fst (fold_left (fun m g =>
                 fold_left (fun m n => Orchestrator.count_bump n m) (Orchestrator.gameNameSet g) m) all m)) ->
                 In k (map fst m) \/ exists g, In g all /\ In k (Orchestrator.gameNameSet g)).
  { induction all as [|g gs IH]; intros m H; simpl in H; [by left|].
    destruct (IH _ H) as [H1|(g' & Hg' & Hk)]; [|right; exists g'; split; [by right|done]].
    destruct (Hn _ _ H1) as [H2|H2]; [by left|right; exists g; split; [by left|done]]. }
  intros H. by destruct (Hg _ H) as [[]|H1].
Qed.

(** The scan for the first strictly largest count. *)
Lemma best_count_fold (l : list (string * nat)) : forall (best : option string) (bc : nat),
  let r := fold_left (fun '(best, bc) '(n, c) => if (bc <? c)%nat then (Some n, c) else (best, bc))
             l (best, bc) in
  (bc <= snd r)%nat /\ (forall n c, In (n, c) l -> (c <= snd r)%nat) /\
  ((fst r = best /\ snd r = bc) \/ exists n, fst r = Some n /\ In (n, snd r) l).
Proof.
  induction l as [|[n c] l IH]; intros best bc; simpl.
  - split; [lia|]. split; [done|]. by left.
  - destruct (bc <? c)%nat eqn:E.
    + apply Nat.ltb_lt in E. destruct (IH (Some n) c) as (H1 & H2 & H3).
      split; [lia|]. split.
      * intros n' c' [[= -> ->]|Hin]; [done|]. eapply H2; exact Hin.
      * right. destruct H3 as [[-> ->]|(n' & -> & Hin)].
        -- exists n. split; [done|]. by left.
        -- exists n'. split; [done|]. by right.
    + apply Nat.ltb_ge in E. destruct (IH best bc) as (H1 & H2 & H3).
      split; [done|]. split.
      * intros n' c' [[= -> ->]|Hin]; [lia|]. eapply H2; exact Hin.
      * destruct H3 as [H3|(n' & -> & Hin)]; [by left|]. right. exists n'. split; [done|]. by right.
Qed.

(** X12.  The name [deriveUsernameFromGames] returns occurs in the name
    set of some game, and no name occurs in the name sets of more games. *)
Theorem derived_username_most_frequent all n :
  Orchestrator.deriveUsernameFromGames all = Some n ->
  (exists g, In g all /\ In n (Orchestrator.gameNameSet g)) /\
  forall m, (games_with_name m all <= games_with_name n all)%nat.
Proof.
  unfold Orchestrator.deriveUsernameFromGames.
  destruct (best_count_fold (Orchestrator.usernameCounts all) None 0%nat) as (H1 & H2 & H3).
  destruct (fold_left _ _ _) as [best bc]. simpl in *. intros ->.
  destruct H3 as [[? _]|(n' & [= <-] & Hin)]; [done|].
  assert (Hn : games_with_name n all = bc).
  { rewrite <- usernameCounts_get. apply counts_get_in; [apply usernameCounts_nodup|done]. }
  split.
  - apply usernameCounts_keys, in_map_iff. by exists (n, bc).
  - intros m. rewrite Hn, <- usernameCounts_get.
    destruct (counts_get m (Orchestrator.usernameCounts all)) eqn:E; [lia|].
    rewrite <- E. apply (H2 m). apply counts_get_pos. lia.
Qed.

Lemma derived_username_most_frequent_witness :
  Orchestrator.deriveUsernameFromGames [c7_g1; c7_g2] = Some "a" /\
  (exists g, In g [c7_g1; c7_g2] /\ In "a" (Orchestrator.gameNameSet g)) /\
  forall m, (games_with_name m [c7_g1; c7_g2] <= games_with_name "a" [c7_g1; c7_g2])%nat.
Proof.
  assert (H : Orchestrator.deriveUsernameFromGames [c7_g1; c7_g2] = Some "a") by (vm_compute; reflexivity).
  split; [exact H|]. exact (derived_username_most_frequent _ _ H).
Defined.

(** X13.  [deriveUsernameFromGames] returns nothing exactly when no game
    has a non-blank player name. *)
Theorem derived_username_none all :
  Orchestrator.deriveUsernameFromGames all = None <->
  forall g, In g all -> Orchestrator.gameNameSet g = [].
Proof.
  split.
  - unfold Orchestrator.deriveUsernameFromGames.
    destruct (best_count_fold (Orchestrator.usernameCounts all) None 0%nat) as (H1 & H2 & H3).
    destruct (fold_left _ _ _) as [best bc]. simpl in *. intros ->.
    destruct H3 as [[_ ->]|(n' & ? & _)]; [|done].
    intros g Hg. destruct (Orchestrator.gameNameSet g) as [|x xs] eqn:Es; [done|].
    exfalso.
    assert (Hpos : (0 < games_with_name x all)%nat).
    { unfold games_with_name.
      destruct (List.filter _ all) eqn:Ef; [|simpl; lia].
      assert (In g (List.filter (fun g => existsb (String.eqb x) (Orchestrator.gameNameSet g)) all)) as Hin.
      { apply filter_In. split; [done|]. rewrite Es. simpl. by rewrite String.eqb_refl. }
      by rewrite Ef in Hin. }
    rewrite <- usernameCounts_get in Hpos.
    pose proof (H2 _ _ (counts_get_pos _ _ Hpos)). lia.
  - intros H. unfold Orchestrator.deriveUsernameFromGames.
    assert (Hc : Orchestrator.usernameCounts all = []).
    { unfold Orchestrator.usernameCounts.
      enough (Hm : forall m, fold_left (fun m g => fold_left (fun m n => Orchestrator.count_bump n m)
                                (Orchestrator.gameNameSet g) m) all m = m) by apply Hm.
      induction all as [|g gs IH]; intros m; simpl; [done|].
      rewrite H by (by left). simpl. apply IH. intros g' Hg'. apply H. by right. }
    by rewrite Hc.
Qed.

(* ================================================================== *)
(** ** The work split and the join of [analyzeWithParallelWorkers] *)

Lemma slices_concat ws size : forall fuel i,
  (1 <= size)%nat -> (length ws - i <= fuel)%nat ->
  concat (Parallel.slices ws size i fuel) = skipn i ws.
Proof.
  induction fuel as [|f IH]; intros i Hs Hf; simpl.
  - symmetry. apply skipn_all2. lia.
  - destruct (i <? length ws)%nat eqn:E.
    + apply Nat.ltb_lt in E. simpl. rewrite IH by lia. unfold Parallel.slice.
      replace (i + size - i)%nat with size by lia.
      rewrite (Nat.add_comm i size), <- skipn_skipn. apply firstn_skipn.
    + apply Nat.ltb_ge in E. symmetry. apply skipn_all2. lia.
Qed.

Lemma slices_nonempty ws size : forall fuel i,
  (1 <= size)%nat -> Forall (fun c => c <> []) (Parallel.slices ws size i fuel).
Proof.
  induction fuel as [|f IH]; intros i Hs; simpl; [constructor|].
  destruct (i <? length ws)%nat eqn:E; [|constructor].
  apply Nat.ltb_lt in E. constructor; [|by apply IH].
  unfold Parallel.slice. replace (i + size - i)%nat with size by lia.
  intros H. apply (f_equal (@length Game)) in H.
  rewrite length_firstn, length_skipn in H. simpl in H. lia.
Qed.

Lemma slices_length ws size : forall fuel i,
  (1 <= size)%nat ->
  (length (Parallel.slices ws size i fuel) * size <= length ws - i + size - 1)%nat.
Proof.
  induction fuel as [|f IH]; intros i Hs; simpl; [lia|].
  destruct (i <? length ws)%nat eqn:E; simpl; [|lia].
  apply Nat.ltb_lt in E. specialize (IH (i + size)%nat Hs).
  destruct (length (Parallel.slices ws size (i + size) f)) as [|n]; simpl in *; lia.
Qed.

Lemma chunk_size_bounds len nw :
  (1 <= nw)%nat -> (1 <= len)%nat ->
  (1 <= (len + nw - 1) / nw)%nat /\ (len <= nw * ((len + nw - 1) / nw))%nat.
Proof.
  intros Hn Hl. split.
  - apply Nat.div_str_pos. lia.
  - pose proof (Nat.div_mod (len + nw - 1) nw ltac:(lia)) as Hd.
    pose proof (Nat.mod_upper_bound (len + nw - 1) nw ltac:(lia)). lia.
Qed.

Lemma chunks_concat nw ws : concat (Parallel.chunks nw ws) = ws.
Proof.
  unfold Parallel.chunks. destruct (Nat.eqb_spec nw 0) as [->|Hn].
  - destruct (Nat.eqb_spec (length ws) 0) as [Hl|Hl]; simpl.
    + symmetry. by apply length_zero_iff_nil.
    + apply app_nil_r.
  - destruct (length ws) as [|len] eqn:El.
    + simpl. symmetry. by apply length_zero_iff_nil.
    + rewrite <- El. apply slices_concat; [|lia].
      apply (chunk_size_bounds (length ws) nw); lia.
Qed.

Lemma chunks_nonempty nw ws : Forall (fun c => c <> []) (Parallel.chunks nw ws).
Proof.
  unfold Parallel.chunks. destruct (Nat.eqb_spec nw 0) as [->|Hn].
  - destruct (Nat.eqb_spec (length ws) 0) as [Hl|Hl]; [constructor|].
    constructor; [|constructor]. intros ->. done.
  - destruct (length ws) as [|len] eqn:El; [constructor|].
    rewrite <- El. apply slices_nonempty. apply (chunk_size_bounds (length ws) nw); lia.
Qed.

Lemma chunks_count nw ws : (length (Parallel.chunks nw ws) <= Nat.max 1 nw)%nat.
Proof.
  unfold Parallel.chunks. destruct (Nat.eqb_spec nw 0) as [->|Hn].
  - destruct (Nat.eqb_spec (length ws) 0); simpl; lia.
  - destruct (length ws) as [|len] eqn:El; [simpl; lia|]. rewrite <- El.
    destruct (chunk_size_bounds (length ws) nw) as [H1 H2]; [lia|lia|].
    pose proof (slices_length ws ((length ws + nw - 1) / nw) (length ws) 0 H1) as H3.
    set (size := ((length ws + nw - 1) / nw)%nat) in *.
    set (n := length (Parallel.slices ws size 0 (length ws))) in *.
    destruct (le_lt_dec n nw) as [Hle|Hlt]; [lia|exfalso].
    assert (n * size >= (nw + 1) * size)%nat by (apply Nat.mul_le_mono_r; lia).
    nia.
Qed.

Lemma first_settle_other i j ev rest :
  i <> j -> Dispatch.first_settle i ((j, ev) :: rest) = Dispatch.first_settle i rest.
Proof. intros Hne. simpl. by rewrite (proj2 (Nat.eqb_neq i j) Hne). Qed.

(** [Promise.all] resolves with the results in worker order when every
    pending worker's first settling event is its result. *)
Lemma join_resolves (rs : list Summary) : forall trace (ps : list Dispatch.Promise),
  length ps = length rs ->
  (forall i r, rs !! i = Some r ->
     ps !! i = Some (Some (inl r)) \/
     (ps !! i = Some None /\ Dispatch.first_settle i trace = Some (Dispatch.MsgResult r))) ->
  Dispatch.join ps trace = inl (inl rs).
Proof.
  unfold Dispatch.Promise.
  induction trace as [|[j ev] rest IH]; intros ps Hlen H; simpl; try unfold Dispatch.Promise.
  - match goal with |- context [mapM ?f ps] => assert (Hm : mapM f ps = Some rs) end.
    { revert ps Hlen H. induction rs as [|r rs IHr]; intros [|p ps] Hlen H; simpl in *; try done.
      destruct (H 0%nat r eq_refl) as [Hp|[_ Hf]]; [|discriminate].
      simpl in Hp. injection Hp as ->. simpl. rewrite (IHr ps); [done|lia|].
      intros i r' Hi. exact (H (S i) r' Hi). }
    by rewrite Hm.
  - assert (Hkeep : forall ps' : list (option (Summary + string)), length ps' = length rs -> ps' !! j <> Some None ->
              (forall i r, rs !! i = Some r -> i <> j -> ps' !! i = ps !! i) ->
              (forall r, rs !! j = Some r -> ps' !! j = Some (Some (inl r)) \/
                  (ps' !! j = Some None /\ Dispatch.first_settle j rest = Some (Dispatch.MsgResult r))) ->
              Dispatch.join ps' rest = inl (inl rs)).
    { intros ps' Hl' _ Hs Hj. apply IH; [done|]. intros i r Hi.
      destruct (decide (i = j)) as [->|Hne]; [by apply Hj|].
      rewrite (Hs i r Hi Hne). destruct (H i r Hi) as [?|[? Hf]]; [by left|right].
      split; [done|]. by rewrite first_settle_other in Hf. }
    destruct (ps !! j) as [p|] eqn:Ej.
    + destruct (lookup_lt_is_Some_2 rs j) as [rj Hrj]; [apply lookup_lt_Some in Ej; lia|].
      destruct (H j rj Hrj) as [Hp|[Hp Hf]]; rewrite Ej in Hp; injection Hp as ->.
      * simpl. rewrite list_insert_id by done. apply IH; [done|].
        intros i r Hi. destruct (H i r Hi) as [?|[Hp Hf]]; [by left|].
        destruct (decide (i = j)) as [->|Hne]; [congruence|].
        right. split; [done|]. by rewrite first_settle_other in Hf.
      * simpl in Hf. rewrite Nat.eqb_refl in Hf.
        destruct ev as [r|e| |e]; simpl; try discriminate.
        -- injection Hf as ->.
           apply Hkeep; [by rewrite length_insert| |intros i r Hi Hne; by rewrite list_lookup_insert_ne|].
           ++ rewrite list_lookup_insert_eq; [done|]. by apply lookup_lt_Some in Ej.
           ++ intros r Hr. rewrite Hrj in Hr. injection Hr as <-. left.
              apply list_lookup_insert_eq. by apply lookup_lt_Some in Ej.
        -- rewrite list_insert_id by done. apply IH; [done|].
           intros i r Hi. destruct (decide (i = j)) as [->|Hne].
           ++ rewrite Hrj in Hi. injection Hi as <-. right. by split.
           ++ destruct (H i r Hi) as [?|[? Hf']]; [by left|right].
              split; [done|]. by rewrite first_settle_other in Hf'.
    + apply IH; [done|]. intros i r Hi. destruct (H i r Hi) as [?|[Hp Hf]]; [by left|].
      destruct (decide (i = j)) as [->|Hne]; [congruence|].
      right. split; [done|]. by rewrite first_settle_other in Hf.
Qed.

Lemma dispatch_resolves (rs : list Summary) trace :
  (forall i r, rs !! i = Some r -> Dispatch.first_settle i trace = Some (Dispatch.MsgResult r)) ->
  Dispatch.analyzeWithParallelWorkers (length rs) trace = Dispatch.Done (Orchestrator.mergeResults rs).
Proof.
  intros H. unfold Dispatch.analyzeWithParallelWorkers.
  rewrite (join_resolves rs trace); [done|by rewrite length_replicate|].
  intros i r Hi. right. split; [|by apply H].
  apply lookup_replicate_2. by apply lookup_lt_Some in Hi.
Qed.

Lemma run_resolves cpus games o trace :
  Parallel.workers_reply o (Parallel.chunks (Parallel.numWorkers cpus o) (Parallel.workingSet games o)) trace ->
  Parallel.run cpus games o trace =
  Dispatch.Done (Orchestrator.mergeResults
    (map (Orchestrator.worker o) (Parallel.chunks (Parallel.numWorkers cpus o) (Parallel.workingSet games o)))).
Proof.
  intros Hw. unfold Parallel.run.
  set (cs := Parallel.chunks _ _) in *.
  rewrite <- (length_map (Orchestrator.worker o) cs). apply dispatch_resolves.
  intros i r Hi. apply list_lookup_fmap_Some in Hi as (c & -> & Hc). by apply Hw.
Qed.

Lemma merge_topMistakes_nil rs : forall acc,
  Forall (fun r => topMistakes r = []) rs -> topMistakes acc = [] ->
  topMistakes (fold_left Orchestrator.merge_step rs acc) = [].
Proof.
  induction rs as [|r rs IH]; intros acc Hr Ha; simpl; [done|].
  apply Forall_cons in Hr as [H1 H2]. apply IH; [done|]. simpl. by rewrite Ha, H1.
Qed.

Lemma worker_tm_nil o c : topMistakes (Orchestrator.worker o c) = [].
Proof.
  unfold Orchestrator.worker. apply analyzeGames_tm_nil.
  destruct (Orchestrator.workerTarget o c) as [t|]; [destruct (Js.truthy t)|]; done.
Qed.

(** X14.  The chunks of [analyzeWithParallelWorkers] concatenate back to
    the working set, in order; none is empty; and there are at most
    [max 1 numWorkers] of them. *)
Theorem chunks_partition nw ws :
  concat (Parallel.chunks nw ws) = ws /\
  Forall (fun c => c <> []) (Parallel.chunks nw ws) /\
  (length (Parallel.chunks nw ws) <= Nat.max 1 nw)%nat.
Proof.
  split; [apply chunks_concat|]. split; [apply chunks_nonempty|apply chunks_count].
Qed.

(** X15.  With a non-empty [bootstrapOpening], [analyzeWithParallelWorkers]
    dispatches a single worker, whose chunk is the list of the games of
    that opening in input order, and no worker when there is none. *)
Theorem bootstrap_opening_single_chunk cpus games o r :
  bootstrapOpening o = Some r -> Js.truthy r = true ->
  Parallel.chunks (Parallel.numWorkers cpus o) (Parallel.workingSet games o) =
    match List.filter (fun g => String.eqb (Classifier.openingName g) r) games with
    | [] => []
    | ws => [ws]
    end.
Proof.
  intros Ho Hr. unfold Parallel.numWorkers, Parallel.workingSet. rewrite Ho, Hr.
  destruct (List.filter _ games) as [|g ws] eqn:E; [done|].
  unfold Parallel.chunks. simpl length. simpl Nat.eqb. cbv iota.
  rewrite Nat.div_1_r. replace (S (length ws) + 1 - 1)%nat with (S (length ws)) by lia.
  simpl. unfold Parallel.slice. simpl. rewrite firstn_all.
  destruct (length ws) as [|n] eqn:El; [done|]. simpl.
  rewrite El. by rewrite Nat.ltb_irrefl.
Qed.

Lemma bootstrap_opening_single_chunk_witness :
  bootstrapOpening c6_options = Some "Ruy" /\ Js.truthy "Ruy" = true /\
  Parallel.chunks (Parallel.numWorkers 4 c6_options) (Parallel.workingSet [c6_italian; c6_ruy] c6_options) =
    match List.filter (fun g => String.eqb (Classifier.openingName g) "Ruy") [c6_italian; c6_ruy] with
    | [] => []
    | ws => [ws]
    end.
Proof.
  assert (Ho : bootstrapOpening c6_options = Some "Ruy") by reflexivity.
  assert (Hr : Js.truthy "Ruy" = true) by reflexivity.
  split; [exact Ho|]. split; [exact Hr|].
  exact (bootstrap_opening_single_chunk 4 [c6_italian; c6_ruy] c6_options "Ruy" Ho Hr).
Defined.

(** X16.  When the first settling event of every dispatched worker is
    its result, [analyzeWithParallelWorkers] resolves with the merge of
    the results in worker order, whatever the arrival order, the progress
    messages, and any event after a worker has settled. *)
Theorem all_workers_resolve (rs : list Summary) trace :
  (forall i r, rs !! i = Some r -> Dispatch.first_settle i trace = Some (Dispatch.MsgResult r)) ->
  Dispatch.analyzeWithParallelWorkers (length rs) trace = Dispatch.Done (Orchestrator.mergeResults rs).
Proof. apply dispatch_resolves. Qed.

Lemma all_workers_resolve_witness :
  let s1 := analyzeGames [c6_italian] noOptions in
  let trace := [(1%nat, Dispatch.MsgProgress); (1%nat, Dispatch.MsgResult s1);
                (0%nat, Dispatch.MsgResult empty_summary); (0%nat, Dispatch.MsgError "late")] in
  (forall i r, [empty_summary; s1] !! i = Some r ->
     Dispatch.first_settle i trace = Some (Dispatch.MsgResult r)) /\
  Dispatch.analyzeWithParallelWorkers 2 trace =
    Dispatch.Done (Orchestrator.mergeResults [empty_summary; s1]).
Proof.
  intros s1 trace.
  assert (H : forall i r, [empty_summary; s1] !! i = Some r ->
                Dispatch.first_settle i trace = Some (Dispatch.MsgResult r)).
  { intros i r Hi. destruct i as [|[|i]]; simpl in Hi;
      [injection Hi as <-; reflexivity|injection Hi as <-; reflexivity|discriminate]. }
  split; [exact H|]. exact (all_workers_resolve [empty_summary; s1] trace H).
Defined.



(** X18.  When every worker replies with its result,
    [analyzeWithParallelWorkers] resolves with a summary whose
    [topMistakes] is empty, whatever the options: the worker never passes
    [bootstrapOpening] on to [analyzeGames]. *)
Theorem parallel_run_no_topMistakes cpus games o trace :
  Parallel.workers_reply o (Parallel.chunks (Parallel.numWorkers cpus o) (Parallel.workingSet games o)) trace ->
  exists s, Parallel.run cpus games o trace = Dispatch.Done s /\ topMistakes s = [].
Proof.
  intros Hw. eexists. split; [exact (run_resolves _ _ _ _ Hw)|].
  unfold Orchestrator.mergeResults, finalize. simpl.
  rewrite merge_topMistakes_nil; [done| |done].
  apply List.Forall_forall. intros r Hr. apply in_map_iff in Hr as (c & <- & _).
  apply worker_tm_nil.
Qed.

Lemma parallel_run_no_topMistakes_witness :
  let trace := [(0%nat, Dispatch.MsgResult (Orchestrator.worker c6_options [c6_ruy]))] in
  Parallel.workers_reply c6_options (Parallel.chunks (Parallel.numWorkers 4 c6_options)
                                       (Parallel.workingSet [c6_italian; c6_ruy] c6_options)) trace /\
  exists s, Parallel.run 4 [c6_italian; c6_ruy] c6_options trace = Dispatch.Done s /\ topMistakes s = [].
Proof.
  intros trace.
  assert (Hw : Parallel.workers_reply c6_options (Parallel.chunks (Parallel.numWorkers 4 c6_options)
                 (Parallel.workingSet [c6_italian; c6_ruy] c6_options)) trace).
  { intros i c Hc.
    assert (E : Parallel.chunks (Parallel.numWorkers 4 c6_options)
                  (Parallel.workingSet [c6_italian; c6_ruy] c6_options) = [[c6_ruy]]) by reflexivity.
    rewrite E in Hc. destruct i as [|i]; simpl in Hc; [injection Hc as <-; reflexivity|discriminate]. }
  split; [exact Hw|]. exact (parallel_run_no_topMistakes _ _ _ _ Hw).
Defined.

(* ================================================================== *)
(** ** [LruMemory] *)

Section LruFacts.
Context {T : Type}.

Lemma map_delete_keys k (m : list (string * T)) x :
  In x (map fst (Lru.map_delete k m)) <-> x <> k /\ In x (map fst m).
Proof.
  induction m as [|[k' v'] r IH]; simpl; [tauto|].
  destruct (String.eqb_spec k' k) as [->|Hne]; simpl; rewrite IH; intuition congruence.
Qed.

Lemma map_delete_nodup k (m : list (string * T)) :
  NoDup (map fst m) -> NoDup (map fst (Lru.map_delete k m)).
Proof.
  induction m as [|[k' v'] r IH]; simpl; intros H; [done|].
  apply NoDup_cons in H as [Hk Hr].
  destruct (String.eqb_spec k' k); simpl; [by apply IH|].
  apply NoDup_cons. split; [|by apply IH].
  rewrite list_elem_of_In, map_delete_keys, <- list_elem_of_In. tauto.
Qed.

Lemma map_delete_length k (m : list (string * T)) :
  (length (Lru.map_delete k m) <= length m)%nat.
Proof. unfold Lru.map_delete. induction m as [|x r IH]; simpl; [lia|]. destruct (negb _); simpl; lia. Qed.

Lemma map_delete_absent k (m : list (string * T)) :
  ~ In k (map fst m) -> Lru.map_delete k m = m.
Proof.
  induction m as [|[k' v'] r IH]; simpl; intros H; [done|].
  destruct (String.eqb_spec k' k) as [->|Hne]; [tauto|]. simpl. f_equal. apply IH. tauto.
Qed.

Lemma map_delete_forall (P : string * T -> Prop) k m :
  Forall P m -> Forall P (Lru.map_delete k m).
Proof.
  unfold Lru.map_delete. intros H. apply List.Forall_forall. intros x Hx.
  apply filter_In in Hx as [Hx _]. by eapply List.Forall_forall in H.
Qed.

Lemma map_delete_in k (m : list (string * T)) kv :
  In kv (Lru.map_delete k m) -> kv.1 <> k.
Proof.
  unfold Lru.map_delete. intros Hx. apply filter_In in Hx as [_ Hx].
  apply negb_true_iff, String.eqb_neq in Hx. done.
Qed.

Lemma map_get_skip k (l r : list (string * T)) :
  (forall kv, In kv l -> kv.1 <> k) -> Lru.map_get k (app l r) = Lru.map_get k r.
Proof.
  unfold Lru.map_get. induction l as [|[k' v'] l IH]; intros H; simpl; [done|].
  destruct (String.eqb_spec k' k) as [->|Hne]; [exfalso; by apply (H (k, v')); [left|]|].
  apply IH. intros kv Hkv. apply H. by right.
Qed.

Lemma lru_get_set k (v : T) c :
  1 <= Lru.lru_max c -> fst (Lru.get k (Lru.set k v c)) = Some v.
Proof.
  intros Hmax. unfold Lru.set. cbv zeta.
  set (l := Lru.map_delete k (Lru.lru_entries c)).
  assert (Hl : forall kv, In kv l -> kv.1 <> k) by apply map_delete_in.
  assert (Hget : forall l', (forall kv, In kv l' -> kv.1 <> k) -> forall mx,
            fst (Lru.get k (Lru.mkLru (app l' [(k, v)]) mx)) = Some v).
  { intros l' Hl' mx. unfold Lru.get. simpl. rewrite map_get_skip by done.
    unfold Lru.map_get. simpl. by rewrite String.eqb_refl. }
  destruct (Lru.lru_max c <? Z.of_nat (length (app l [(k, v)]))) eqn:E; [|by apply Hget].
  apply Z.ltb_lt in E. rewrite length_app in E. simpl in E.
  destruct l as [|[first x] rest] eqn:El; [simpl in E; lia|].
  cbn [app]. destruct (Js.truthy first); [|by apply (Hget ((first, x) :: rest))].
  assert (Hf : first <> k) by (apply (Hl (first, x)); by left).
  change ((first, x) :: app rest [(k, v)]) with (app ((first, x) :: rest) [(k, v)]).
  unfold Lru.map_delete. rewrite List.filter_app. simpl.
  rewrite (proj2 (String.eqb_neq k first)) by congruence.
  simpl. apply Hget. intros kv Hkv. rewrite String.eqb_refl in Hkv. simpl in Hkv.
  apply filter_In in Hkv as [Hkv _]. apply Hl. by right.
Qed.

End LruFacts.

(** X19.  [LruMemory.set] of a non-empty key keeps the memory tier
    within its bound: when the keys are distinct and non-empty and there
    are at most [max] of them, so it is after the call. *)
Theorem lru_set_bounded {T} k (v : T) c :
  lru_wf c -> Js.truthy k = true -> lru_wf (Lru.set k v c).
Proof.
  intros (Hnd & Htr & Hlen) Hk. unfold Lru.set. cbv zeta.
  set (l := Lru.map_delete k (Lru.lru_entries c)).
  assert (Hnd' : NoDup (map fst (app l [(k, v)]))).
  { rewrite map_app. apply NoDup_app. split; [by apply map_delete_nodup|].
    split; [|apply NoDup_singleton]. intros x Hx Hx'.
    apply list_elem_of_singleton in Hx'. subst x.
    apply list_elem_of_In, map_delete_keys in Hx as [Hx _]. done. }
  assert (Htr' : Forall (fun kv => Js.truthy kv.1 = true) (app l [(k, v)])).
  { apply Forall_app. split; [by apply map_delete_forall|]. by constructor. }
  assert (Hl : (length l <= length (Lru.lru_entries c))%nat) by apply map_delete_length.
  destruct (Lru.lru_max c <? Z.of_nat (length (app l [(k, v)]))) eqn:E.
  - destruct (app l [(k, v)]) as [|[first x] rest] eqn:Em.
    + unfold lru_wf. simpl. split; [done|]. split; [done|].
      apply Z.ltb_lt in E. simpl in E. lia.
    + assert (Hf : Js.truthy first = true) by (by apply Forall_cons in Htr' as [? _]).
      rewrite Hf. simpl in Hnd'.
      apply NoDup_cons in Hnd' as [Hfirst Hrest].
      assert (Hfr : Lru.map_delete first ((first, x) :: rest) = rest).
      { unfold Lru.map_delete. simpl. rewrite String.eqb_refl. simpl.
        apply map_delete_absent. rewrite <- list_elem_of_In. done. }
      rewrite Hfr. unfold lru_wf. simpl. split; [done|]. split; [by apply Forall_cons in Htr' as [_ ?]|].
      assert (length (app l [(k, v)]) = S (length rest)) by (by rewrite Em).
      rewrite length_app in *. simpl in *. lia.
  - apply Z.ltb_ge in E. unfold lru_wf. simpl. done.
Qed.

Lemma lru_set_bounded_witness :
  lru_wf (Lru.mkLru [("a", 1)] 1) /\ Js.truthy "b" = true /\
  lru_wf (Lru.set "b" 2 (Lru.mkLru [("a", 1)] 1)).
Proof.
  assert (Hw : lru_wf (Lru.mkLru [("a", 1)] 1)).
  { split; [apply NoDup_singleton|]. split; [by repeat constructor|]. simpl. lia. }
  assert (Hk : Js.truthy "b" = true) by reflexivity.
  split; [exact Hw|]. split; [exact Hk|]. exact (lru_set_bounded "b" 2 _ Hw Hk).
Defined.

(** X20.  A [get] right after [set(key, value)] returns [value], even
    when the [set] evicted an entry. *)
Theorem lru_get_after_set {T} k (v : T) c :
  1 <= Lru.lru_max c -> fst (Lru.get k (Lru.set k v c)) = Some v.
Proof. apply lru_get_set. Qed.

Lemma lru_get_after_set_witness :
  1 <= Lru.lru_max (Lru.create (T:=Z) 0) /\
  fst (Lru.get "b" (Lru.set "b" 2 (Lru.set "a" 1 (Lru.create 0)))) = Some 2.
Proof.
  assert (H : 1 <= Lru.lru_max (Lru.set "a" 1 (Lru.create (T:=Z) 0))) by (vm_compute; discriminate).
  split; [vm_compute; discriminate|]. exact (lru_get_after_set "b" 2 _ H).
Defined.

(** X21.  Once the oldest key of the memory tier is the empty string,
    [set] of another key never evicts: the entry is appended (after
    removing an older one of that key) and the size exceeds [max] without
    bound. *)
Theorem lru_empty_key_blocks_eviction {T} (v0 v : T) rest k c :
  Lru.lru_entries c = ("", v0) :: rest -> k <> "" ->
  Lru.lru_entries (Lru.set k v c) = ("", v0) :: app (Lru.map_delete k rest) [(k, v)].
Proof.
  intros Hc Hk. unfold Lru.set. cbv zeta. rewrite Hc.
  assert (Hd : Lru.map_delete k (("", v0) :: rest) = ("", v0) :: Lru.map_delete k rest).
  { unfold Lru.map_delete. cbn [List.filter fst].
    destruct (String.eqb_spec "" k) as [He|_]; [by subst|done]. }
  rewrite Hd. simpl app.
  destruct (Lru.lru_max c <? _); done.
Qed.

Lemma lru_empty_key_blocks_eviction_witness :
  Lru.lru_entries (Lru.mkLru [("", 0)] 1) = ("", 0) :: [] /\ "a" <> "" /\
  Lru.lru_entries (Lru.set "a" 1 (Lru.mkLru [("", 0)] 1)) =
    ("", 0) :: app (Lru.map_delete "a" []) [("a", 1)].
Proof.
  assert (Hc : Lru.lru_entries (Lru.mkLru [("", 0)] 1) = ("", 0) :: []) by reflexivity.
  assert (Hk : "a" <> "") by discriminate.
  split; [exact Hc|]. split; [exact Hk|].
  exact (lru_empty_key_blocks_eviction 0 1 [] "a" _ Hc Hk).
Defined.

(* ================================================================== *)
(** ** [SummaryCache]: the index, [versionMap] and the two tiers *)












Lemma evict_loop_dataSize entries : forall c,
  Cache.dataSize (Cache.evict_loop entries c) = Cache.dataSize c.
Proof.
  induction entries as [|ent r IH]; intros c; simpl; [done|].
  destruct (_ <=? _); [done|]. by rewrite IH.
Qed.

Lemma evictIfNeeded_dataSize c : Cache.dataSize (Cache.evictIfNeeded c) = Cache.dataSize c.
Proof. unfold Cache.evictIfNeeded. destruct (_ <=? _); [done|]. apply evict_loop_dataSize. Qed.





Lemma lru_get_create {T} k mx : fst (Lru.get (T:=T) k (Lru.create mx)) = None.
Proof. reflexivity. Qed.



(** X23.  A [tryGet] right after [save(key, ...)] returns the saved
    summary, [createdAt] and version from the memory tier, also when
    eviction has already removed the key from the index. *)
Theorem tryGet_after_save st k s pv now len :
  1 <= Lru.lru_max (Store.memory st) ->
  fst (Store.tryGet (Store.save st k s pv now len) k) =
    Some (Store.mkMemVal s now (Cache.savedVersion (Store.disk st) k pv)).
Proof.
  intros Hm. unfold Store.tryGet. cbn [Store.memory Store.save].
  pose proof (lru_get_set k (Store.mkMemVal s now (Cache.savedVersion (Store.disk st) k pv))
                (Store.memory st) Hm) as H.
  destruct (Lru.get k _) as [[v|] mem]; simpl in H; [by inversion H|done].
Qed.

Lemma tryGet_after_save_witness :
  let st1 := Store.save (Store.mkStore (Cache.empty 150) [] (Lru.create 100) 0 0 0)
               "k1" empty_summary None 1 100 in
  Cache.index (Store.disk (Store.save st1 "k2" empty_summary None 2 100)) = [] /\
  1 <= Lru.lru_max (Store.memory st1) /\
  fst (Store.tryGet (Store.save st1 "k2" empty_summary None 2 100) "k2") =
    Some (Store.mkMemVal empty_summary 2 (Cache.savedVersion (Store.disk st1) "k2" None)).
Proof.
  intros st1.
  assert (Hm : 1 <= Lru.lru_max (Store.memory st1)) by (vm_compute; discriminate).
  split; [vm_compute; reflexivity|]. split; [exact Hm|].
  exact (tryGet_after_save st1 "k2" empty_summary None 2 100 Hm).
Defined.



(** X25.  Eviction only deletes index entries: the data log never
    shrinks, and each [save] grows it by exactly the appended bytes. *)
Theorem save_grows_data_log c k pv now len :
  Cache.dataSize (Cache.save c k pv now len) = Cache.dataSize c + len.
Proof. unfold Cache.save. cbv zeta. rewrite evictIfNeeded_dataSize. reflexivity. Qed.

(** X26.  Each [tryGet] counts exactly one hit or one miss, and leaves
    the write counter, the index and the data log as they were. *)
Theorem tryGet_counts_once st k :
  let st' := snd (Store.tryGet st k) in
  (Store.hits st' + Store.misses st' = S (Store.hits st + Store.misses st))%nat /\
  Store.writes st' = Store.writes st /\ Store.disk st' = Store.disk st /\
  Store.log st' = Store.log st.
Proof.
  unfold Store.tryGet. destruct (Lru.get k (Store.memory st)) as [[v|] mem]; simpl.
  - repeat split; lia.
  - destruct (Store.obj_get k _) as [e|]; simpl; [|repeat split; lia].
    destruct (Store.read_log _ _ _); simpl; repeat split; lia.
Qed.
